(** * Slot-interleaved pagination of the product list page, the filter
      toggle and the CMS import command

    A shallow embedding of
    - [calculatePageOffsets], [enrichResults], [toggleFilter], the effect
      that aligns the offset and the search parameters of [getProps] of
      [app/pages/product-list/index.jsx],
    - the handler of the [import] command of the CMS import CLI and its
      failure handler, and
    - the lookup of the rendering component in the content wrapper.

    JavaScript numbers are modelled as integers of [Z]: page sizes, totals,
    offsets, slot positions and spans are integers well inside the range in
    which floating point arithmetic is exact, so [Math.floor (a / b)] is
    [Z.div] for a non-zero [b].  A property read from an object that may be
    [undefined] is an [option]. *)

From Stdlib Require Import ZArith Lia Sorted.
From stdpp Require Import base list list_numbers sorting gmap strings.

Local Open Scope Z_scope.

(** Length of a list as an integer, as [arr.length] is used. *)
Local Abbreviation zlen l := (Z.of_nat (length l)).

(** ** Slots *)

(** A grid slot as delivered by the CMS ([gridItem]): its grid position, its
    row and column span and the id of the embedded content.  [isAmplience] is
    the marker that [enrichResults] writes on the object. *)
Record Slot := mkSlot {
  position : Z;
  rows : Z;
  cols : Z;
  contentId : string;
  isAmplience : bool
}.

Definition sortedByPosition (l : list Slot) : Prop :=
  Sorted (λ a b, position a <= position b) l.

(** ** The page-offset calculator *)

Module PageOffsets.

(** The three locals that the closures [fillPages] and [skipContent] share. *)
Record PState := mkPState {
  pages : list Z;
  processed : Z;
  offset : Z
}.

Definition initial : PState := mkPState [] 0 0.

Definition pageNumber (pageSize index : Z) : Z := index / pageSize.

(** [while (pages.length <= uptoBasePage) pages.push(pages.length * pageSize - offset)].
    Every iteration tests the loop condition, as the source does; [fuel]
    bounds the number of iterations. *)
Fixpoint pushPages (fuel : nat) (pageSize off uptoBasePage : Z) (pgs : list Z) : list Z :=
  match fuel with
  | O => pgs
  | S fuel' =>
      if Z.of_nat (length pgs) <=? uptoBasePage
      then pushPages fuel' pageSize off uptoBasePage
             (pgs ++ [Z.of_nat (length pgs) * pageSize - off])
      else pgs
  end.

(** Iterations the loop needs: one per missing page.  With this fuel the
    loop is always left through its test (lemma [fillPages_exit]). *)
Definition pushFuel (uptoBasePage : Z) (pgs : list Z) : nat :=
  Z.to_nat (uptoBasePage + 1 - Z.of_nat (length pgs)).

Definition fillPages (pageSize upTo : Z) (st : PState) : PState :=
  let uptoBasePage := pageNumber pageSize (upTo + offset st) in
  mkPState
    (pushPages (pushFuel uptoBasePage (pages st)) pageSize (offset st) uptoBasePage (pages st))
    upTo
    (offset st).

Definition skipContent (pageSize size : Z) (st : PState) : PState :=
  fillPages pageSize (processed st)
    (mkPState (pages st) (processed st) (offset st + size)).

(** [isMobile ? 1 : Number(slot.cols) * Number(slot.rows)] *)
Definition slotCells (isMobile : bool) (slot : Slot) : Z :=
  if isMobile then 1 else cols slot * rows slot.

(** One turn of the [for] loop over [ampSlots]. *)
Definition processSlot (pageSize : Z) (isMobile : bool) (st : PState) (slot : Slot) : PState :=
  let st1 := fillPages pageSize (position slot) st in
  let size := slotCells isMobile slot in
  skipContent pageSize size st1.

Definition processSlots (pageSize : Z) (isMobile : bool) (st : PState) (slots : list Slot) : PState :=
  fold_left (processSlot pageSize isMobile) slots st.

(** [ampSlots] may be [undefined]: the loop is guarded by [if (ampSlots)]. *)
Definition calculatePageOffsets (pageSize totalCount : Z) (ampSlots : option (list Slot))
    (isMobile : bool) : list Z :=
  let st :=
    match ampSlots with
    | Some slots => processSlots pageSize isMobile initial slots
    | None => initial
    end in
  pages (fillPages pageSize totalCount st).

(** Cells that the slots of a list take away from the products. *)
Definition reservedCells (isMobile : bool) (slots : list Slot) : Z :=
  foldr (λ s acc, slotCells isMobile s + acc) 0 slots.

(** [Math.ceil (a / b)] for a positive [b]. *)
Definition ceilDiv (a b : Z) : Z := - ((- a) / b).

Definition nonDecreasing (l : list Z) : Prop :=
  ∀ (i j : nat) (a b : Z), (i <= j)%nat → l !! i = Some a → l !! j = Some b → a <= b.

(** What [calculatePageOffsets] reads of a slot. *)
Definition geometry (slot : Slot) : Z * Z * Z :=
  (position slot, rows slot, cols slot).

(** A state that was filled up to [processed]: every page number reached by
    [processed + offset] is in the table. *)
Definition filled (pageSize : Z) (st : PState) : Prop :=
  processed st + offset st < Z.of_nat (length (pages st)) * pageSize.

(** The invariant of the loop over the slots: the table is ordered, no page
    starts behind the last position dealt with, and the table is filled. *)
Definition ordered (pageSize : Z) (st : PState) : Prop :=
  StronglySorted Z.le (pages st)
  ∧ Forall (λ x, x <= processed st) (pages st)
  ∧ (pages st = [] ∨ filled pageSize st).

(** The first page while the calculator runs: either page 0 is the only
    page so far, it starts at product 0 and is not yet full, or the second
    page has been made and starts behind product 0. *)
Definition openFirstPage (pageSize : Z) (st : PState) : Prop :=
  (pages st = [0] ∧ 0 <= processed st ∧ filled pageSize st)
  ∨ (∃ x tl, pages st = 0 :: x :: tl ∧ 0 < x).

(** The invariant of the loop over slots of one cell at positions that grow
    strictly: the table grows strictly, and a page that starts at
    [processed] leaves room for one more cell before the next page. *)
Definition strictlyOrdered (pageSize : Z) (st : PState) : Prop :=
  StronglySorted Z.lt (pages st)
  ∧ Forall (λ x, x <= processed st) (pages st)
  ∧ (pages st = [] ∨ filled pageSize st).

(** Every entry of the table is its page number times the page size, less
    the cells of the slots dealt with when the page was made. *)
Definition accounted (pageSize : Z) (isMobile : bool) (done : list Slot) (st : PState) : Prop :=
  offset st = reservedCells isMobile done
  ∧ ∀ (k : nat) (x : Z), pages st !! k = Some x →
      ∃ before, before `prefix_of` done
                ∧ x = Z.of_nat k * pageSize - reservedCells isMobile before.

(** No page takes more cells than a page has: the shift of a page is at
    most the current one, and a page starts at most [pageSize] behind the
    page before it. *)
Definition paced (pageSize : Z) (st : PState) : Prop :=
  (∀ (k : nat) (x : Z), pages st !! k = Some x → Z.of_nat k * pageSize - x <= offset st)
  ∧ (∀ (k : nat) (a b : Z), pages st !! k = Some a → pages st !! S k = Some b →
       b - a <= pageSize).

(** Every slot fits the page it starts on.  [shift] is the number of cells
    of the slots that come before in the list, so [position + shift] is the
    cell at which the calculator sees the slot begin; its cells must not
    reach beyond the end of the page that holds that cell. *)
Fixpoint fitsPages (pageSize : Z) (isMobile : bool) (shift : Z) (slots : list Slot) : Prop :=
  match slots with
  | [] => True
  | slot :: rest =>
      position slot + shift + slotCells isMobile slot
        <= (pageNumber pageSize (position slot + shift) + 1) * pageSize
      ∧ fitsPages pageSize isMobile (shift + slotCells isMobile slot) rest
  end.

(** The same for the first page alone: a slot that begins on the first page
    ends on it.  The first slot that begins behind the first page closes
    that page, and nothing is asked of it nor of the slots after it. *)
Fixpoint fitsFirstPage (pageSize : Z) (isMobile : bool) (shift : Z) (slots : list Slot) : Prop :=
  match slots with
  | [] => True
  | slot :: rest =>
      if position slot + shift <? pageSize
      then position slot + shift + slotCells isMobile slot <= pageSize
           ∧ fitsFirstPage pageSize isMobile (shift + slotCells isMobile slot) rest
      else True
  end.

(** A table whose first page starts at product 0 and whose second page, if
    there is one, starts behind product 0. *)
Definition firstPageOpen (pgs : list Z) : Prop :=
  pgs = [0] ∨ ∃ x tl, pgs = 0 :: x :: tl ∧ 0 < x.

End PageOffsets.

(** ** The locals of a call *)

Module Closures.

Import PageOffsets.

(** Every call of [calculatePageOffsets] binds [pages], [processed] and
    [offset] anew, and the closures [fillPages] and [skipContent] that the
    call creates refer to those bindings.  The heap holds the bindings of
    the calls made so far, one record for each call, by address; a closure
    works on the record at the address [env] of the call that created it. *)
Definition fillPagesAt (pageSize upTo : Z) (env : nat) (heap : gmap nat PState)
    : gmap nat PState :=
  alter (fillPages pageSize upTo) env heap.

Definition skipContentAt (pageSize size : Z) (env : nat) (heap : gmap nat PState)
    : gmap nat PState :=
  alter (skipContent pageSize size) env heap.

(** The body of the [for] loop over [ampSlots], on the heap. *)
Definition processSlotAt (pageSize : Z) (isMobile : bool) (env : nat)
    (heap : gmap nat PState) (slot : Slot) : gmap nat PState :=
  let heap1 := fillPagesAt pageSize (position slot) env heap in
  let size := if isMobile then 1 else cols slot * rows slot in
  skipContentAt pageSize size env heap1.

(** A call on a heap: the record of the call is allocated at an address
    that the heap does not hold and is initialised by the three
    declarations; the call returns the array [pages] of its record and
    leaves the heap with that record in it.  The record is there when the
    call returns (lemma [calculatePageOffsetsOn_run]), so the last lookup
    never fails. *)
Definition calculatePageOffsetsOn (heap : gmap nat PState) (pageSize totalCount : Z)
    (ampSlots : option (list Slot)) (isMobile : bool) : list Z * gmap nat PState :=
  let env := fresh (dom heap) in
  let heap0 := <[env := mkPState [] 0 0]> heap in
  let heap1 :=
    match ampSlots with
    | Some slots => fold_left (processSlotAt pageSize isMobile env) slots heap0
    | None => heap0
    end in
  let heap2 := fillPagesAt pageSize totalCount env heap1 in
  (match heap2 !! env with Some st => pages st | None => [] end, heap2).

End Closures.

(** ** Result enrichment *)

Module Enrich.

Import PageOffsets.

(** An element of the sequence handed to the grid: a product hit, or one of
    the slot objects of [ampSlots].  The array [ampSlots] is the store of the
    slot objects and [ItemSlot i] is the object held at index [i] of it, so a
    write to that object is seen through the array and through the sequence. *)
Inductive Item (H : Type) : Type :=
| ItemHit (h : H)
| ItemSlot (i : nat).
Arguments ItemHit {H} h.
Arguments ItemSlot {H} i.

(** The part of a product search result that [enrichResults] reads. *)
Record SearchResult (H : Type) := mkSearchResult {
  hits : option (list H);
  resultOffset : Z;
  total : Z
}.
Arguments mkSearchResult {H} _ _ _.
Arguments hits {H} _.
Arguments resultOffset {H} _.
Arguments total {H} _.

(** [Array.prototype.findIndex]: the first index whose element passes the
    test, [-1] when there is none. *)
Fixpoint findIndexFrom (f : Z → bool) (l : list Z) (i : Z) : Z :=
  match l with
  | [] => -1
  | x :: l' => if f x then i else findIndexFrom f l' (i + 1)
  end.

Definition findIndex (f : Z → bool) (l : list Z) : Z := findIndexFrom f l 0.

(** [arr[i]] for an integer [i]: [undefined] outside of the array. *)
Definition at_ (l : list Z) (i : Z) : option Z :=
  if i <? 0 then None else l !! Z.to_nat i.

(** [pages.findIndex((pageIndex) => pageIndex > offset) - 1], replaced by the
    last page when no entry exceeds the offset. *)
Definition pageIdOf (pgs : list Z) (offset : Z) : Z :=
  let pageId := findIndex (λ pageIndex, offset <? pageIndex) pgs - 1 in
  if pageId =? -2 then Z.of_nat (length pgs) - 1 else pageId.

(** [(pages[pageId + 1] ?? total) - pages[pageId]]; [None] is the [NaN] that
    the subtraction yields when [pages[pageId]] is [undefined]. *)
Definition sfccCountOf (pgs : list Z) (pageId total : Z) : option Z :=
  match at_ pgs pageId with
  | None => None
  | Some base => Some (default total (at_ pgs (pageId + 1)) - base)
  end.

(** [arr.slice(0, end)]: a negative [end] counts from the end of the array
    and [NaN] is taken as [0]. *)
Definition sliceTo {A : Type} (l : list A) (end_ : option Z) : list A :=
  match end_ with
  | None => []
  | Some e =>
      if e <? 0 then take (Z.to_nat (Z.of_nat (length l) + e)) l
      else take (Z.to_nat e) l
  end.

(** [arr.splice(start, 0, x)]: a negative [start] counts from the end of the
    array, and the index is clamped to the bounds of the array. *)
Definition spliceIn {A : Type} (l : list A) (start : Z) (x : A) : list A :=
  let k := if start <? 0 then Z.to_nat (Z.of_nat (length l) + start)
           else Z.to_nat start in
  take k l ++ x :: drop k l.

Definition markAmplience (s : Slot) : Slot :=
  mkSlot (position s) (rows s) (cols s) (contentId s) true.

(** The locals of the [for ... of] loop together with the slot store. *)
Record EState (H : Type) := mkEState {
  items : list (Item H);
  reservedSpaces : Z;
  store : list Slot
}.
Arguments mkEState {H} _ _ _.
Arguments items {H} _.
Arguments reservedSpaces {H} _.
Arguments store {H} _.

(** [isMobile ? 1 : Number(slot.rows) * Number(slot.cols)] *)
Definition slotSize (isMobile : bool) (slot : Slot) : Z :=
  if isMobile then 1 else rows slot * cols slot.

(** [for (let slot of ampSlots)] from index [i] on; [rest] are the slots not
    yet visited.  [continue] moves on to the next slot, [break] leaves the
    loop. *)
Fixpoint placeSlots {H : Type} (pageSize pageBase : Z) (isMobile : bool)
    (rest : list Slot) (i : nat) (st : EState H) : EState H :=
  match rest with
  | [] => st
  | slot :: rest' =>
      let pos := position slot in
      if pos <? pageBase then placeSlots pageSize pageBase isMobile rest' (S i) st
      else if pos >=? pageBase + pageSize then st
      else
        let size := slotSize isMobile slot in
        let store1 := <[i := markAmplience slot]> (store st) in
        let items1 := spliceIn (items st) (pos - pageBase - reservedSpaces st) (ItemSlot i) in
        placeSlots pageSize pageBase isMobile rest' (S i)
          (mkEState items1 (reservedSpaces st + (size - 1)) store1)
  end.

(** The result of a call: the returned sequence ([None] for [undefined]) and
    the slot array as the call leaves it. *)
Definition enrichResults {H : Type} (productSearchResults : option (SearchResult H))
    (pageSize : Z) (ampSlots : option (list Slot)) (pgs : list Z) (isMobile : bool)
    : option (list (Item H)) * option (list Slot) :=
  match productSearchResults with
  | None => (None, ampSlots)
  | Some res =>
      match hits res with
      | None => (None, ampSlots)
      | Some hs =>
          let offset := resultOffset res in
          let pageId := pageIdOf pgs offset in
          let pageBase := pageId * pageSize in
          let sfccCount := sfccCountOf pgs pageId (total res) in
          let items0 := sliceTo (ItemHit <$> hs) sfccCount in
          match ampSlots with
          | None => (Some items0, None)
          | Some slots =>
              let st := placeSlots pageSize pageBase isMobile slots 0%nat
                          (mkEState items0 0 slots) in
              (Some (items st), Some (store st))
          end
      end
  end.

(** The index range of the page that starts at [pageBase]. *)
Definition inPage (pageSize pageBase : Z) (slot : Slot) : bool :=
  (pageBase <=? position slot) && (position slot <? pageBase + pageSize).

(** What the loop leaves in the store for a slot that it found as [slot]. *)
Definition marked (pageSize pageBase : Z) (slot : Slot) : Slot :=
  if inPage pageSize pageBase slot then markAmplience slot else slot.

(** The product hits of a sequence, in the order in which they stand. *)
Definition hitsOf {H : Type} (sequence : list (Item H)) : list H :=
  omap (λ item, match item with ItemHit h => Some h | ItemSlot _ => None end) sequence.

(** The indices, counted from [i], of the slots of a list whose position is
    in the range of the page. *)
Fixpoint pageSlotsFrom (pageSize pageBase : Z) (rest : list Slot) (i : nat) : list nat :=
  match rest with
  | [] => []
  | slot :: rest' =>
      if inPage pageSize pageBase slot
      then i :: pageSlotsFrom pageSize pageBase rest' (S i)
      else pageSlotsFrom pageSize pageBase rest' (S i)
  end.

(** Every slot that the loop places on the page after a first one is
    spliced in behind the head of the sequence: the index of its splice, its
    position on the page less the spaces reserved by the slots placed
    before it, is at least 1.  The predicate follows the loop: a slot before
    the page is passed by, a slot behind the page ends the loop. *)
Fixpoint placedBehindHead (pageSize pageBase : Z) (isMobile : bool) (reserved : Z)
    (rest : list Slot) : Prop :=
  match rest with
  | [] => True
  | slot :: rest' =>
      if position slot <? pageBase
      then placedBehindHead pageSize pageBase isMobile reserved rest'
      else if position slot >=? pageBase + pageSize then True
      else 1 <= position slot - pageBase - reserved
           ∧ placedBehindHead pageSize pageBase isMobile
               (reserved + (slotSize isMobile slot - 1)) rest'
  end.

End Enrich.

(** ** The filter toggle *)

Module Filters.

(** A refinement value of the search parameters: a single string (several
    values may be joined by a bar) or an array of strings. *)
Inductive RefineValue :=
| RefStr (s : string)
| RefArr (vs : list string).

(** The search parameters of the page; [refine] is the object that maps an
    attribute id to its value. *)
Record SearchParams := mkSearchParams {
  limit : Z;
  spOffset : option Z;
  sort : option string;
  refine : gmap string RefineValue
}.

(** [s.split(sep)] for a one-character separator. *)
Fixpoint splitOn (sep : Ascii.ascii) (s : string) : list string :=
  match s with
  | EmptyString => [EmptyString]
  | String c s' =>
      if Ascii.eqb c sep then EmptyString :: splitOn sep s'
      else match splitOn sep s' with
           | [] => [String c EmptyString]
           | w :: ws => String c w :: ws
           end
  end.

(** The separator of joined refinement values. *)
Definition bar : Ascii.ascii := Ascii.ascii_of_nat 124.

(** [searchParamsCopy.refine[attributeId] || []], then
    [Array.isArray(attributeValue) ? attributeValue : attributeValue.split('|')]:
    a missing attribute and the empty string are falsy. *)
Definition currentValues (r : gmap string RefineValue) (attributeId : string) : list string :=
  match r !! attributeId with
  | None => []
  | Some (RefArr vs) => vs
  | Some (RefStr EmptyString) => []
  | Some (RefStr s) => splitOn bar s
  end.

(** [vs.join(sep)], the form in which several values stand in one string. *)
Fixpoint joinWith (sep : Ascii.ascii) (vs : list string) : string :=
  match vs with
  | [] => EmptyString
  | [v] => v
  | v :: rest => v +:+ String sep (joinWith sep rest)
  end.

(** Whether a character stands in a string. *)
Fixpoint hasChar (c : Ascii.ascii) (s : string) : bool :=
  match s with
  | EmptyString => false
  | String c' s' => Ascii.eqb c' c || hasChar c s'
  end.

(** What a call leaves behind: [live] is the [searchParams] object of the
    component after the call, [navigated] is [searchParamsCopy] as it is
    handed to [stringifySearchParams] for the navigation.  The copy is a
    shallow one, so both hold the same [refine] object and every write to it
    shows in both. *)
Record Toggled := mkToggled {
  live : SearchParams;
  navigated : SearchParams
}.

Definition toggleFilter (value attributeId : string) (selected allowMultiple : bool)
    (searchParams : SearchParams) : Toggled :=
  let refine' :=
    if negb allowMultiple then
      let r1 := delete attributeId (refine searchParams) in
      if negb selected then <[attributeId := RefStr value]> r1 else r1
    else
      let values0 := currentValues (refine searchParams) attributeId in
      let values :=
        if negb selected then values0 ++ [value]
        else filter (λ v, v ≠ value) values0 in
      let r1 := <[attributeId := RefArr values]> (refine searchParams) in
      if (length values =? 0)%nat then delete attributeId r1 else r1 in
  mkToggled
    (mkSearchParams (limit searchParams) (spOffset searchParams) (sort searchParams) refine')
    (mkSearchParams (limit searchParams) None (sort searchParams) refine').

End Filters.

(** ** The import command of the CLI *)

Module ImportCli.

(** The parsed options of the command. *)
Record Context := mkContext {
  automationDir : string;
  hubId : string;
  clientId : string;
  clientSecret : string;
  contentRepoId : string;
  slotsRepoId : string
}.

(** What the process does that can be observed from outside. *)
Inductive Event :=
| Log (line : string)
| Exec (command : string).

(** A computation returns, or throws with the exit status of a child. *)
Inductive Outcome (A : Type) :=
| Returned (a : A)
| Thrown (status : Z).
Arguments Returned {A} a.
Arguments Thrown {A} status.

Section Process.

(** The machine outside of the process, and what running a shell command
    to its end does to it: the new state and the exit status of the child. *)
Variable World : Type.
Variable spawn : string → World → World * Z.

Record Proc := mkProc {
  world : World;
  trace : list Event
}.

Definition M (A : Type) : Type := Proc → Outcome A * Proc.

Definition ret {A : Type} (a : A) : M A := λ p, (Returned a, p).

Definition bind {A B : Type} (m : M A) (k : A → M B) : M B :=
  λ p, match m p with
       | (Returned a, p') => k a p'
       | (Thrown status, p') => (Thrown status, p')
       end.

Definition consoleLog (line : string) : M unit :=
  λ p, (Returned tt, mkProc (world p) (trace p ++ [Log line])).

(** [childProcess.execSync]: blocks until the child has exited and throws
    when its exit status is not zero. *)
Definition execSync (command : string) : M unit :=
  λ p, let '(w, status) := spawn command (world p) in
       let p' := mkProc w (trace p ++ [Exec command]) in
       if status =? 0 then (Returned tt, p') else (Thrown status, p').

Declare Scope proc_scope.
Local Notation "m ;; k" := (bind m (λ _, k))
  (at level 100, k at level 200, right associativity) : proc_scope.
Local Open Scope proc_scope.

Definition dcCli : string := "./node_modules/.bin/dc-cli".

Definition configureCmd (context : Context) : string :=
  dcCli +:+ " configure --clientId " +:+ clientId context +:+
  " --clientSecret " +:+ clientSecret context +:+ " --hubId " +:+ hubId context.
Definition settingsCmd (context : Context) : string :=
  dcCli +:+ " settings import " +:+ automationDir context +:+ "/settings".
Definition schemaCmd (context : Context) : string :=
  dcCli +:+ " content-type-schema import " +:+ automationDir context +:+ "/schema".
Definition typeCmd (context : Context) : string :=
  dcCli +:+ " content-type import " +:+ automationDir context +:+ "/type".
Definition contentCmd (context : Context) : string :=
  dcCli +:+ " content-item import " +:+ automationDir context +:+
  "/content/content --baseRepo " +:+ contentRepoId context.
Definition slotsCmd (context : Context) : string :=
  dcCli +:+ " content-item import " +:+ automationDir context +:+
  "/content/slots --baseRepo " +:+ slotsRepoId context.
Definition eventsCmd (context : Context) : string :=
  dcCli +:+ " event import " +:+ automationDir context +:+ "/events".

(** The handler of the [import] command. *)
Definition importHandler (context : Context) : M unit :=
  consoleLog "configuring dc-cli..." ;;
  execSync (configureCmd context) ;;
  consoleLog "importing settings..." ;;
  execSync (settingsCmd context) ;;
  consoleLog "importing content type schemas..." ;;
  execSync (schemaCmd context) ;;
  consoleLog "importing content types..." ;;
  execSync (typeCmd context) ;;
  consoleLog "importing content..." ;;
  execSync (contentCmd context) ;;
  consoleLog "importing slots..." ;;
  execSync (slotsCmd context) ;;
  consoleLog "importing events..." ;;
  execSync (eventsCmd context) ;;
  consoleLog "done!".

(** The behaviour that the description of the command gives: the steps
    are run one after the other, each to its end, and the first one that
    exits with a status other than zero ends the run.  The result is the
    list of the commands that were run, the outcome and the world that is
    left. *)
Fixpoint runInOrder (steps : list string) (w : World)
    : list string * Outcome unit * World :=
  match steps with
  | [] => ([], Returned tt, w)
  | command :: later =>
      let '(w1, status) := spawn command w in
      if status =? 0 then
        let '(ran, outcome, w2) := runInOrder later w1 in
        (command :: ran, outcome, w2)
      else ([command], Thrown status, w1)
  end.

End Process.

Arguments mkProc {World} _ _.
Arguments world {World} _.
Arguments trace {World} _.

(** The commands of a trace, in the order in which they were run. *)
Definition commandsOf (t : list Event) : list string :=
  omap (λ e, match e with Exec c => Some c | Log _ => None end) t.

(** The import steps in the order that the description of the command
    gives: settings, schemas, content types, content items, slots, events. *)
Definition importSteps (context : Context) : list string :=
  [settingsCmd context; schemaCmd context; typeCmd context;
   contentCmd context; slotsCmd context; eventsCmd context].

(** The lines and commands of a run in which every command exits with
    status zero. *)
Definition importScript (context : Context) : list Event :=
  [Log "configuring dc-cli..."; Exec (configureCmd context);
   Log "importing settings..."; Exec (settingsCmd context);
   Log "importing content type schemas..."; Exec (schemaCmd context);
   Log "importing content types..."; Exec (typeCmd context);
   Log "importing content..."; Exec (contentCmd context);
   Log "importing slots..."; Exec (slotsCmd context);
   Log "importing events..."; Exec (eventsCmd context);
   Log "done!"].

(** The second argument of the fail callback: a string, or an error object
    with its [name]. *)
Inductive ErrArg :=
| ErrString (text : string)
| ErrObject (name message : string).

(** What the fail callback does to the terminal and to the process. *)
Inductive FailEvent :=
| ShowHelp
| LogError (err : ErrArg)
| Exit (status : Z).

(** [err instanceof Error && err.name === 'YError'] *)
Definition isYError (err : option ErrArg) : bool :=
  match err with
  | Some (ErrObject name _) => String.eqb name "YError"
  | _ => false
  end.

(** Truthiness of the arguments: the empty string and [undefined] are
    falsy, an error object is truthy. *)
Definition truthyMsg (msg : option string) : bool :=
  match msg with
  | Some EmptyString | None => false
  | Some _ => true
  end.

Definition truthyErr (err : option ErrArg) : bool :=
  match err with
  | None | Some (ErrString EmptyString) => false
  | Some _ => true
  end.

(** The state that the fail callback closes over, and whether the process
    has been ended by [process.exit]. *)
Record FailState := mkFailState {
  failInvoked : bool;
  exited : bool;
  failTrace : list FailEvent
}.

(** [failFn (msg, err)]; a process that has exited runs nothing. *)
Definition failFn (msg : option string) (err : option ErrArg) (st : FailState) : FailState :=
  if exited st then st
  else if failInvoked st then st
  else if truthyMsg msg && negb (truthyErr err) || isYError err then
    mkFailState true false (failTrace st ++ [ShowHelp])
  else if truthyErr err then
    match err with
    | Some e => mkFailState true true (failTrace st ++ [LogError e; Exit 0])
    | None => mkFailState true false (failTrace st)
    end
  else mkFailState true false (failTrace st).

(** A series of invocations of the callback. *)
Definition failAll (calls : list (option string * option ErrArg)) (st : FailState) : FailState :=
  fold_left (λ st call, failFn call.1 call.2 st) calls st.

End ImportCli.

(** ** The effect that aligns the offset with the table *)

Module Navigation.

(** The loop that looks for the entry of the table nearest to the offset of
    the URL; [dist] is [None] for [Infinity]. *)
Fixpoint nearestFrom (pageOffsets : list Z) (offset : Z) (i : nat)
    (dist : option Z) (pageId : nat) : nat :=
  match pageOffsets with
  | [] => pageId
  | x :: rest =>
      let myDist := Z.abs (x - offset) in
      if match dist with None => true | Some d => myDist <? d end
      then nearestFrom rest offset (S i) (Some myDist) i
      else nearestFrom rest offset (S i) dist pageId
  end.

Definition nearestPage (pageOffsets : list Z) (offset : Z) : nat :=
  nearestFrom pageOffsets offset 0 None 0.

(** What the effect does: nothing, or a navigation to the same parameters
    with another offset ([None] for [undefined]). *)
Inductive Alignment :=
| Stay
| NavigateTo (offset : option Z).

(** [if (pageOffsets[pageId] !== searchParams.offset) navigate (...)] *)
Definition alignOffset (pageOffsets : list Z) (offset : Z) : Alignment :=
  let pageId := nearestPage pageOffsets offset in
  match pageOffsets !! pageId with
  | Some x => if x =? offset then Stay else NavigateTo (Some x)
  | None => NavigateTo None
  end.

End Navigation.

(** ** The content wrapper: from schema to component *)

Module Wrapper.

(** The rendering components that the registry and the product list name;
    [Other] is any component that a caller brings along. *)
Inductive Component :=
| Hero
| SectionBlock
| CuratedProductList
| CardEnhanced
| PersonalisedComponent
| PersonalisedContainer
| FlexibleListSlot
| Blank
| GridItemHero
| Other (name : string).

Definition componentsMapping : gmap string Component :=
  list_to_map
    [("https://sfcc.com/components/hero", Hero);
     ("https://sfcc.com/components/section", SectionBlock);
     ("https://sfcc.com/components/curated-product", CuratedProductList);
     ("https://sfcc.com/components/card-enhanced", CardEnhanced);
     ("https://sfcc.com/components/personalised-component", PersonalisedComponent);
     ("https://sfcc.com/components/personalised-container", PersonalisedContainer);
     ("https://sfcc.com/slots/flexible-list", FlexibleListSlot);
     ("https://sfcc.com/slots/personalised-slot", PersonalisedComponent);
     ("https://sfcc.com/site/navigation/root", Blank);
     ("https://sfcc.com/site/navigation/external", Blank);
     ("https://sfcc.com/site/navigation/internal", Blank);
     ("https://sfcc.com/site/navigation/content-page", Blank);
     ("https://sfcc.com/site/navigation/category", Blank);
     ("https://sfcc.com/site/navigation/group", Blank)].

(** [inGridComponents] of the product list page. *)
Definition inGridComponents : gmap string Component :=
  {[ "https://sfcc.com/components/hero" := GridItemHero ]}.

(** [components ? {...componentsMapping, ...components} : componentsMapping]:
    in the spread the entries of [components] come last and win. *)
Definition mappingFor (components : option (gmap string Component)) : gmap string Component :=
  match components with
  | Some own => own ∪ componentsMapping
  | None => componentsMapping
  end.

Section Prototype.

(** The mapping is a plain object, the registry itself or the fresh object
    of the spread, so a key that is not among its own keys is looked up in
    [Object.prototype].  [objectPrototype] holds the properties that a plain
    object inherits ([toString], [constructor], [hasOwnProperty] and the
    like), whose values, functions and objects, all count as true in the
    test of [Component]. *)
Variable Inherited : Type.
Variable objectPrototype : gmap string Inherited.

(** What is rendered: a component of the mapping, an inherited value taken
    for a component, or the content as raw JSON. *)
Inductive Rendered :=
| Render (component : Component)
| RenderInherited (value : Inherited)
| Raw.

(** [mapping[key]]: an own key of the mapping first, then the prototype. *)
Definition lookupMapping (mapping : gmap string Component) (key : string) : Rendered :=
  match mapping !! key with
  | Some component => Render component
  | None =>
      match objectPrototype !! key with
      | Some value => RenderInherited value
      | None => Raw
      end
  end.

(** [mapping[fetchedContent?._meta?.schema]]; a schema that is [undefined]
    is looked up as the key ["undefined"]. *)
Definition resolve (components : option (gmap string Component)) (schema : option string)
    : Rendered :=
  lookupMapping (mappingFor components) (default "undefined" schema).

End Prototype.

Arguments Render {Inherited} component.
Arguments RenderInherited {Inherited} value.
Arguments Raw {Inherited}.
Arguments lookupMapping {Inherited} objectPrototype mapping key.
Arguments resolve {Inherited} objectPrototype components schema.

End Wrapper.

(** ** The search parameters of [getProps] *)

Module SearchProps.

(** The refinements that [getProps] sends to the product search: the ones of
    the URL, the category unless it is among them, and the restriction to
    master products.  An empty category id is falsy. *)
Definition searchRefine (categoryId : option string) (refine : list string) : list string :=
  let refine1 :=
    match categoryId with
    | Some (String c cs as id) =>
        if bool_decide (("cgid=" +:+ id) ∈ refine) then refine
        else refine ++ ["cgid=" +:+ id]
    | _ => refine
    end in
  refine1 ++ ["htype=master"].

End SearchProps.

(** ** Sample data *)

(** Search parameters with a size and a colour refinement. *)
Definition sizeM : Filters.SearchParams :=
  Filters.mkSearchParams 25 (Some 50) None
    {[ "c_size" := Filters.RefStr "M"; "c_refinementColor" := Filters.RefStr "red|blue" ]}.

(** The options of a run of the import command. *)
Definition demoContext : ImportCli.Context :=
  ImportCli.mkContext "./automation" "hub" "client" "secret" "content-repo" "slots-repo".

(** A machine that counts the commands it has run and on which the command
    number [failing] exits with status 1. *)
Definition failAt (failing : nat) (command : string) (w : nat) : nat * Z :=
  (S w, if Nat.eqb w failing then 1 else 0).

(** A slot with the hero banner as content. *)
Definition heroAt (pos r c : Z) : Slot := mkSlot pos r c "hero" false.

(** Four product hits, named by their product ids. *)
Definition fourHits : list string := ["a"; "b"; "c"; "d"].

(** The table for page size 3, ten products and a slot at position 0. *)
Definition tableOfTen : list Z := [0; 2; 5; 8].

(** The same slot with other spans. *)
Definition setSpan (r c : Z) (s : Slot) : Slot :=
  mkSlot (position s) r c (contentId s) (isAmplience s).

(** * Properties of the page-offset calculator *)

Import PageOffsets.

Section FillPages.

Variable pageSize : Z.
Hypothesis pageSize_pos : 0 < pageSize.

(** Floor division brackets its argument. *)
Lemma pageNumber_bounds (index : Z) :
  pageNumber pageSize index * pageSize <= index
  < (pageNumber pageSize index + 1) * pageSize.
Proof.
  unfold pageNumber.
  pose proof (Z.div_mod index pageSize ltac:(lia)) as E.
  pose proof (Z.mod_pos_bound index pageSize pageSize_pos) as B.
  nia.
Qed.

Lemma pageNumber_mono (a b : Z) :
  a <= b → pageNumber pageSize a <= pageNumber pageSize b.
Proof. intros. unfold pageNumber. by apply Z.div_le_mono. Qed.

(** The loop in closed form: it appends the missing pages, one for every
    page number from [pages.length] up to [uptoBasePage]. *)
Lemma pushPages_closed (fuel : nat) (off base : Z) (pgs : list Z) :
  Z.of_nat fuel = Z.max 0 (base + 1 - zlen pgs) →
  pushPages fuel pageSize off base pgs
  = pgs ++ ((λ k, k * pageSize - off) <$> seqZ (zlen pgs) (Z.of_nat fuel)).
Proof.
  revert pgs. induction fuel as [|fuel IH]; intros pgs Hfuel.
  - cbn. by rewrite app_nil_r.
  - cbn [pushPages].
    destruct (Z.leb_spec (zlen pgs) base) as [Hle|Hgt]; [|lia].
    rewrite IH by (rewrite length_app; cbn; lia).
    rewrite (seqZ_cons (zlen pgs)) by lia.
    rewrite length_app, fmap_cons, <- app_assoc. cbn [length app].
    replace (Z.of_nat (length pgs + 1)) with (Z.succ (zlen pgs)) by lia.
    replace (Z.pred (Z.of_nat (S fuel))) with (Z.of_nat fuel) by lia.
    done.
Qed.

Lemma fillPages_pages (upTo : Z) (st : PState) :
  pages (fillPages pageSize upTo st)
  = pages st ++ ((λ k, k * pageSize - offset st) <$>
      seqZ (zlen (pages st))
        (Z.max 0 (pageNumber pageSize (upTo + offset st) + 1 - zlen (pages st)))).
Proof.
  unfold fillPages, pushFuel. cbn [pages].
  rewrite pushPages_closed by lia. do 3 f_equal. lia.
Qed.

Lemma fillPages_length (upTo : Z) (st : PState) :
  zlen (pages (fillPages pageSize upTo st))
  = Z.max (zlen (pages st)) (pageNumber pageSize (upTo + offset st) + 1).
Proof.
  rewrite fillPages_pages, length_app, length_fmap, length_seqZ. lia.
Qed.

(** The loop is left because its condition fails, not for want of fuel. *)
Lemma fillPages_exit (upTo : Z) (st : PState) :
  (zlen (pages (fillPages pageSize upTo st))
     <=? pageNumber pageSize (upTo + offset st)) = false.
Proof. apply Z.leb_gt. rewrite fillPages_length. lia. Qed.

Lemma fillPages_offset (upTo : Z) (st : PState) :
  offset (fillPages pageSize upTo st) = offset st.
Proof. reflexivity. Qed.

Lemma fillPages_processed (upTo : Z) (st : PState) :
  processed (fillPages pageSize upTo st) = upTo.
Proof. reflexivity. Qed.

Lemma processSlot_offset (isMobile : bool) (st : PState) (slot : Slot) :
  offset (processSlot pageSize isMobile st slot) = offset st + slotCells isMobile slot.
Proof. reflexivity. Qed.

Lemma processSlot_processed (isMobile : bool) (st : PState) (slot : Slot) :
  processed (processSlot pageSize isMobile st slot) = position slot.
Proof. reflexivity. Qed.

Lemma processSlot_length (isMobile : bool) (st : PState) (slot : Slot) :
  0 <= slotCells isMobile slot →
  zlen (pages (processSlot pageSize isMobile st slot))
  = Z.max (zlen (pages st))
      (pageNumber pageSize (position slot + offset st + slotCells isMobile slot) + 1).
Proof.
  intros Hs. unfold processSlot, skipContent.
  rewrite fillPages_length. cbn [pages offset processed].
  rewrite fillPages_length, fillPages_offset, fillPages_processed.
  pose proof (pageNumber_mono (position slot + offset st)
                (position slot + (offset st + slotCells isMobile slot)) ltac:(lia)).
  replace (position slot + offset st + slotCells isMobile slot)
    with (position slot + (offset st + slotCells isMobile slot)) by lia.
  lia.
Qed.

Lemma processSlots_cons (isMobile : bool) (slot : Slot) (slots : list Slot) (st : PState) :
  processSlots pageSize isMobile st (slot :: slots)
  = processSlots pageSize isMobile (processSlot pageSize isMobile st slot) slots.
Proof. reflexivity. Qed.

Lemma reservedCells_cons (isMobile : bool) (slot : Slot) (slots : list Slot) :
  reservedCells isMobile (slot :: slots)
  = slotCells isMobile slot + reservedCells isMobile slots.
Proof. reflexivity. Qed.

Lemma processSlots_offset (isMobile : bool) (slots : list Slot) (st : PState) :
  offset (processSlots pageSize isMobile st slots)
  = offset st + reservedCells isMobile slots.
Proof.
  revert st. induction slots as [|slot slots IH]; intros st.
  - cbn. lia.
  - rewrite processSlots_cons, reservedCells_cons, IH, processSlot_offset. lia.
Qed.

Lemma reservedCells_nonneg (isMobile : bool) (slots : list Slot) :
  Forall (λ s, 0 <= slotCells isMobile s) slots → 0 <= reservedCells isMobile slots.
Proof. induction 1; [cbn; lia | rewrite reservedCells_cons; lia]. Qed.

(** While the slots lie within the products, no page beyond the one of the
    last cell is made. *)
Lemma processSlots_length_le (isMobile : bool) (totalCount : Z) (slots : list Slot)
    (st : PState) :
  Forall (λ s, position s <= totalCount ∧ 0 <= slotCells isMobile s) slots →
  zlen (pages st)
    <= pageNumber pageSize (totalCount + offset st + reservedCells isMobile slots) + 1 →
  zlen (pages (processSlots pageSize isMobile st slots))
    <= pageNumber pageSize (totalCount + offset st + reservedCells isMobile slots) + 1.
Proof.
  intros Hall. revert st.
  induction Hall as [|slot slots [Hpos Hsize] Hall IH]; intros st Hlen.
  - done.
  - rewrite processSlots_cons. rewrite reservedCells_cons in *.
    assert (0 <= reservedCells isMobile slots) as HR.
    { apply reservedCells_nonneg. eapply Forall_impl; [exact Hall|]. cbn. tauto. }
    replace (totalCount + offset st
             + (slotCells isMobile slot + reservedCells isMobile slots))
      with (totalCount + offset (processSlot pageSize isMobile st slot)
            + reservedCells isMobile slots)
      in * by (rewrite processSlot_offset; lia).
    apply IH. rewrite processSlot_length by done.
    rewrite processSlot_offset.
    pose proof (pageNumber_mono
      (position slot + offset st + slotCells isMobile slot)
      (totalCount + (offset st + slotCells isMobile slot) + reservedCells isMobile slots)
      ltac:(lia)).
    rewrite processSlot_offset in Hlen. lia.
Qed.

(** What the code gives for the number of pages: the page number of the
    cell behind the last one, plus one. *)
Lemma calculatePageOffsets_length (totalCount : Z) (slots : list Slot) (isMobile : bool) :
  0 <= totalCount →
  Forall (λ s, position s <= totalCount ∧ 0 <= slotCells isMobile s) slots →
  zlen (calculatePageOffsets pageSize totalCount (Some slots) isMobile)
  = pageNumber pageSize (totalCount + reservedCells isMobile slots) + 1.
Proof.
  intros Htotal Hall. unfold calculatePageOffsets.
  rewrite fillPages_length, processSlots_offset. cbn [offset initial].
  assert (0 <= reservedCells isMobile slots) as HR.
  { apply reservedCells_nonneg. eapply Forall_impl; [exact Hall|]. cbn. tauto. }
  pose proof (processSlots_length_le isMobile totalCount slots initial Hall) as Hle.
  cbn [offset initial pages length] in Hle.
  pose proof (pageNumber_mono 0 (totalCount + 0 + reservedCells isMobile slots) ltac:(lia)) as H0.
  unfold pageNumber at 1 in H0. rewrite Z.div_0_l in H0 by lia.
  specialize (Hle ltac:(lia)).
  replace (totalCount + 0 + reservedCells isMobile slots)
    with (totalCount + reservedCells isMobile slots) in Hle by lia.
  replace (totalCount + (0 + reservedCells isMobile slots))
    with (totalCount + reservedCells isMobile slots) by lia.
  lia.
Qed.

(** *** Order of the table *)

Lemma newPages_sorted (off m n : Z) :
  StronglySorted Z.le ((λ k, k * pageSize - off) <$> seqZ m n).
Proof.
  destruct (Z.le_gt_cases n 0) as [Hn|Hn].
  { rewrite seqZ_nil by done. constructor. }
  rewrite <- (Z2Nat.id n) by lia. clear Hn.
  generalize (Z.to_nat n) as c. intros c. revert m.
  induction c as [|c IH]; intros m.
  - cbn. constructor.
  - rewrite seqZ_cons by lia. rewrite fmap_cons. apply StronglySorted_cons. split.
    + apply Forall_fmap, Forall_seqZ. intros k Hk. cbn. nia.
    + replace (Z.pred (Z.of_nat (S c))) with (Z.of_nat c) by lia. apply IH.
Qed.

Lemma fillPages_filled (upTo : Z) (st : PState) : filled pageSize (fillPages pageSize upTo st).
Proof.
  unfold filled. rewrite fillPages_length, fillPages_offset, fillPages_processed.
  pose proof (pageNumber_bounds (upTo + offset st)). nia.
Qed.

(** Filling keeps the table ordered when the next page to be made starts
    no earlier than the pages already there. *)
Lemma fillPages_sorted (upTo bound : Z) (st : PState) :
  StronglySorted Z.le (pages st) →
  Forall (λ x, x <= bound) (pages st) →
  pages st = [] ∨ bound <= zlen (pages st) * pageSize - offset st →
  StronglySorted Z.le (pages (fillPages pageSize upTo st)).
Proof.
  intros Hsorted Hbound Hnext. rewrite fillPages_pages.
  apply StronglySorted_app. split_and!; [|done|apply newPages_sorted].
  intros x1 x2 Hx1 Hx2.
  destruct Hnext as [Hnil|Hnext]; [rewrite Hnil in Hx1; by apply elem_of_nil in Hx1|].
  rewrite Forall_forall in Hbound. specialize (Hbound x1 Hx1).
  apply list_elem_of_fmap in Hx2 as (k & -> & Hk).
  apply elem_of_seqZ in Hk. nia.
Qed.

(** No page made by [fillPages upTo] starts behind [upTo]. *)
Lemma fillPages_below (upTo bound : Z) (st : PState) :
  Forall (λ x, x <= bound) (pages st) →
  upTo <= bound →
  Forall (λ x, x <= bound) (pages (fillPages pageSize upTo st)).
Proof.
  intros Hbound Hle. rewrite fillPages_pages. apply Forall_app. split; [done|].
  apply Forall_fmap, Forall_seqZ. intros k Hk. cbn.
  pose proof (pageNumber_bounds (upTo + offset st)). nia.
Qed.

Lemma ordered_initial : ordered pageSize initial.
Proof. split_and!; [constructor|constructor|by left]. Qed.

Lemma processSlot_ordered (isMobile : bool) (st : PState) (slot : Slot) :
  slotCells isMobile slot <= 1 →
  pages st = [] ∨ processed st <= position slot →
  ordered pageSize st →
  ordered pageSize (processSlot pageSize isMobile st slot)
  ∧ filled pageSize (processSlot pageSize isMobile st slot).
Proof.
  intros Hsize Hpos (Hsorted & Hbelow & Hfilled).
  set (st1 := fillPages pageSize (position slot) st).
  assert (StronglySorted Z.le (pages st1)) as Hsorted1.
  { apply (fillPages_sorted _ (processed st)); [done|done|].
    destruct Hfilled as [?|Hf]; [by left|right]. unfold filled in Hf. lia. }
  assert (Forall (λ x, x <= position slot) (pages st1)) as Hbelow1.
  { apply fillPages_below; [|lia].
    destruct Hpos as [Hnil|Hpos]; [rewrite Hnil; constructor|].
    eapply Forall_impl; [exact Hbelow|]. cbn. lia. }
  pose proof (fillPages_filled (position slot) st) as Hfilled1. fold st1 in Hfilled1.
  assert (processed st1 = position slot) as Hproc1 by reflexivity.
  unfold filled in Hfilled1. rewrite Hproc1 in Hfilled1.
  unfold processSlot, skipContent. fold st1. rewrite Hproc1.
  split; [split_and!|].
  - apply (fillPages_sorted _ (position slot)); cbn [pages offset]; [done|done|].
    right. lia.
  - rewrite fillPages_processed. apply fillPages_below; cbn [pages]; [done|lia].
  - right. apply fillPages_filled.
  - apply fillPages_filled.
Qed.

Lemma processSlots_ordered (isMobile : bool) (slots : list Slot) (st : PState) :
  Forall (λ s, slotCells isMobile s <= 1) slots →
  sortedByPosition slots →
  pages st = [] ∨ (∀ s, head slots = Some s → processed st <= position s) →
  ordered pageSize st →
  ordered pageSize (processSlots pageSize isMobile st slots).
Proof.
  intros Hsizes. revert st.
  induction Hsizes as [|slot slots Hsize Hsizes IH]; intros st Hslots Hhd Hst.
  - done.
  - rewrite processSlots_cons.
    apply Sorted_inv in Hslots as [Hslots Hrel].
    destruct (processSlot_ordered isMobile st slot) as [Hord Hfil]; [done| |done|].
    { destruct Hhd as [?|Hhd]; [by left|right]. by apply Hhd. }
    apply IH; [done| |done].
    right. rewrite processSlot_processed. intros s Hs.
    destruct Hrel as [|s' slots' Hle]; [done|]. cbn in Hs. by injection Hs as <-.
Qed.

Lemma calculatePageOffsets_sorted (totalCount : Z) (slots : list Slot) (isMobile : bool) :
  Forall (λ s, slotCells isMobile s <= 1) slots →
  sortedByPosition slots →
  StronglySorted Z.le (calculatePageOffsets pageSize totalCount (Some slots) isMobile).
Proof.
  intros Hsizes Hslots. unfold calculatePageOffsets.
  destruct (processSlots_ordered isMobile slots initial) as (Hsorted & Hbelow & Hfilled);
    [done|done|by left|apply ordered_initial|].
  apply (fillPages_sorted _ (processed (processSlots pageSize isMobile initial slots)));
    [done|done|].
  destruct Hfilled as [?|Hf]; [by left|right]. unfold filled in Hf. lia.
Qed.

(** A slot that fits the page it starts on keeps the table ordered: the
    page that its cells complete, if any, starts at its own position. *)
Lemma processSlot_ordered_fits (isMobile : bool) (st : PState) (slot : Slot) :
  position slot + offset st + slotCells isMobile slot
    <= (pageNumber pageSize (position slot + offset st) + 1) * pageSize →
  pages st = [] ∨ processed st <= position slot →
  ordered pageSize st →
  ordered pageSize (processSlot pageSize isMobile st slot)
  ∧ filled pageSize (processSlot pageSize isMobile st slot).
Proof.
  intros Hfits Hpos (Hsorted & Hbelow & Hfilled).
  set (st1 := fillPages pageSize (position slot) st).
  assert (StronglySorted Z.le (pages st1)) as Hsorted1.
  { apply (fillPages_sorted _ (processed st)); [done|done|].
    destruct Hfilled as [?|Hf]; [by left|right]. unfold filled in Hf. lia. }
  assert (Forall (λ x, x <= position slot) (pages st1)) as Hbelow1.
  { apply fillPages_below; [|lia].
    destruct Hpos as [Hnil|Hpos]; [rewrite Hnil; constructor|].
    eapply Forall_impl; [exact Hbelow|]. cbn. lia. }
  pose proof (fillPages_length (position slot) st) as Hlen1. fold st1 in Hlen1.
  assert (processed st1 = position slot) as Hproc1 by reflexivity.
  assert (offset st1 = offset st) as Hoff1 by reflexivity.
  assert ((pageNumber pageSize (position slot + offset st) + 1) * pageSize
          <= zlen (pages st1) * pageSize) as Hpages1 by nia.
  unfold processSlot, skipContent. fold st1. rewrite Hproc1, Hoff1.
  split; [split_and!|].
  - apply (fillPages_sorted _ (position slot)); cbn [pages offset]; [done|done|].
    right. lia.
  - rewrite fillPages_processed. apply fillPages_below; cbn [pages]; [done|lia].
  - right. apply fillPages_filled.
  - apply fillPages_filled.
Qed.

Lemma processSlots_ordered_fits (isMobile : bool) (slots : list Slot) (st : PState) :
  fitsPages pageSize isMobile (offset st) slots →
  sortedByPosition slots →
  pages st = [] ∨ (∀ s, head slots = Some s → processed st <= position s) →
  ordered pageSize st →
  ordered pageSize (processSlots pageSize isMobile st slots).
Proof.
  revert st. induction slots as [|slot slots IH]; intros st Hfits Hslots Hhd Hst.
  - done.
  - rewrite processSlots_cons. destruct Hfits as [Hfit Hfits].
    apply Sorted_inv in Hslots as [Hslots Hrel].
    destruct (processSlot_ordered_fits isMobile st slot) as [Hord Hfil]; [done| |done|].
    { destruct Hhd as [?|Hhd]; [by left|right]. by apply Hhd. }
    apply IH; [by rewrite processSlot_offset|done| |done].
    right. rewrite processSlot_processed. intros s Hs.
    destruct Hrel as [|s' slots' Hle]; [done|]. cbn in Hs. by injection Hs as <-.
Qed.

Lemma calculatePageOffsets_sorted_fits (totalCount : Z) (slots : list Slot) (isMobile : bool) :
  fitsPages pageSize isMobile 0 slots →
  sortedByPosition slots →
  StronglySorted Z.le (calculatePageOffsets pageSize totalCount (Some slots) isMobile).
Proof.
  intros Hfits Hslots. unfold calculatePageOffsets.
  destruct (processSlots_ordered_fits isMobile slots initial) as (Hsorted & Hbelow & Hfilled);
    [done|done|by left|apply ordered_initial|].
  apply (fillPages_sorted _ (processed (processSlots pageSize isMobile initial slots)));
    [done|done|].
  destruct Hfilled as [?|Hf]; [by left|right]. unfold filled in Hf. lia.
Qed.

(** A slot of at most one cell fits the page it starts on, wherever it
    starts. *)
Lemma fitsPages_single_cell (isMobile : bool) (slots : list Slot) (shift : Z) :
  Forall (λ s, slotCells isMobile s <= 1) slots →
  fitsPages pageSize isMobile shift slots.
Proof.
  intros Hsizes. revert shift.
  induction Hsizes as [|slot slots Hsize Hsizes IH]; intros shift; [done|].
  split; [|apply IH].
  pose proof (pageNumber_bounds (position slot + shift)). lia.
Qed.

End FillPages.

Lemma StronglySorted_nonDecreasing (l : list Z) :
  StronglySorted Z.le l → nonDecreasing l.
Proof.
  intros Hl i j a b Hij Hi Hj.
  destruct (decide (i = j)) as [->|Hne].
  { rewrite Hi in Hj. injection Hj as ->. lia. }
  assert (i < j)%nat as Hlt by lia. clear Hij Hne.
  apply lookup_lt_Some in Hj as Hjlen.
  rewrite <- (take_drop j l) in Hl, Hi, Hj.
  rewrite lookup_app_l in Hi by (rewrite length_take; lia).
  rewrite lookup_app_r in Hj by (rewrite length_take; lia).
  apply (StronglySorted_app_1_elem_of _ _ _ a b) in Hl; [done| |].
  - by eapply list_elem_of_lookup_2.
  - by eapply list_elem_of_lookup_2.
Qed.

Lemma calculatePageOffsets_absent (pageSize totalCount : Z) (isMobile : bool) :
  calculatePageOffsets pageSize totalCount None isMobile
  = calculatePageOffsets pageSize totalCount (Some []) isMobile.
Proof. reflexivity. Qed.

Lemma ceilDiv_floor (a b : Z) :
  0 < b → a mod b ≠ 0 → ceilDiv a b = a / b + 1.
Proof. intros Hb Hmod. unfold ceilDiv. rewrite Z.div_opp_l_nz by (done || lia). lia. Qed.

(** ** Length of the table *)

(** C1, as stated, fails.  With page size 3 and 3 products the table is
    [0; 3], two entries where the claim gives [ceil (3 / 3) = 1]; and a slot
    at position 10 with 2 products makes four pages where the claim gives
    [ceil (3 / 3) = 1]. *)
Lemma calculatePageOffsets_length_not_ceil :
  (0 < 3 ∧ 0 <= 3 ∧ sortedByPosition []
   ∧ calculatePageOffsets 3 3 (Some []) false = [0; 3]
   ∧ zlen (calculatePageOffsets 3 3 (Some []) false)
     ≠ ceilDiv (3 + reservedCells false []) 3)
  ∧ (0 < 3 ∧ 0 <= 2 ∧ sortedByPosition [heroAt 10 1 1]
     ∧ calculatePageOffsets 3 2 (Some [heroAt 10 1 1]) false = [0; 3; 6; 9]
     ∧ zlen (calculatePageOffsets 3 2 (Some [heroAt 10 1 1]) false)
       ≠ ceilDiv (2 + reservedCells false [heroAt 10 1 1]) 3).
Proof.
  split; (split_and!; [lia|lia|repeat constructor|reflexivity|vm_compute; discriminate]).
Qed.

(** C1, amended: for a page size above zero, a total of at least zero and a
    slot list sorted by position in which no slot lies behind the products
    and no slot has a negative cell count, the table has
    [ceil ((total + reserved cells) / pageSize)] entries whenever
    [total + reserved cells] is not a multiple of the page size. *)
Theorem calculatePageOffsets_length_ceil
    (pageSize totalCount : Z) (slots : list Slot) (isMobile : bool) :
  0 < pageSize →
  0 <= totalCount →
  sortedByPosition slots →
  Forall (λ s, position s <= totalCount ∧ 0 <= slotCells isMobile s) slots →
  (totalCount + reservedCells isMobile slots) mod pageSize ≠ 0 →
  zlen (calculatePageOffsets pageSize totalCount (Some slots) isMobile)
  = ceilDiv (totalCount + reservedCells isMobile slots) pageSize.
Proof.
  intros Hp Ht _ Hall Hmod.
  rewrite (calculatePageOffsets_length pageSize Hp totalCount slots isMobile Ht Hall).
  rewrite ceilDiv_floor by done. reflexivity.
Qed.

Lemma calculatePageOffsets_length_ceil_witness :
  zlen (calculatePageOffsets 3 10 (Some [heroAt 0 1 1; heroAt 4 1 2]) false)
  = ceilDiv (10 + reservedCells false [heroAt 0 1 1; heroAt 4 1 2]) 3.
Proof.
  apply calculatePageOffsets_length_ceil.
  - lia.
  - lia.
  - repeat constructor. cbn. lia.
  - repeat constructor; cbn; lia.
  - vm_compute. discriminate.
Defined.

(** ** Growth of the offset shift *)

(** C2, as stated, fails: one slot of one cell moves the shift from 0 to 1,
    not to [0 + (1 - 1)]. *)
Lemma processSlot_offset_not_minus_one :
  offset (processSlot 3 true initial (heroAt 0 2 2)) = 1
  ∧ offset (processSlot 3 true initial (heroAt 0 2 2))
    ≠ offset initial + (slotCells true (heroAt 0 2 2) - 1).
Proof. split; [reflexivity|vm_compute; discriminate]. Qed.

(** C2, amended: handling one slot, after the pages were filled up to its
    position, increases the offset shift by the cell count of the slot; this
    holds for every slot of the list, whatever came before it. *)
Theorem processSlot_offset_shift
    (pageSize : Z) (isMobile : bool) (before after : list Slot) (slot : Slot) :
  let st := processSlots pageSize isMobile initial before in
  processSlots pageSize isMobile initial (before ++ slot :: after)
  = processSlots pageSize isMobile (processSlot pageSize isMobile st slot) after
  ∧ offset (fillPages pageSize (position slot) st) = offset st
  ∧ offset (processSlot pageSize isMobile st slot) = offset st + slotCells isMobile slot.
Proof.
  cbn zeta. split_and!.
  - unfold processSlots. by rewrite fold_left_app.
  - reflexivity.
  - reflexivity.
Qed.

(** ** Order of the table *)

(** C3, as stated, fails: on the wide viewport a slot of 2 by 2 cells at
    position 0 with page size 3 gives the table [0; -1; 2; 5; 8]. *)
Lemma calculatePageOffsets_not_monotone :
  0 < 3 ∧ 0 <= 10 ∧ sortedByPosition [heroAt 0 2 2]
  ∧ calculatePageOffsets 3 10 (Some [heroAt 0 2 2]) false = [0; -1; 2; 5; 8]
  ∧ ¬ nonDecreasing (calculatePageOffsets 3 10 (Some [heroAt 0 2 2]) false).
Proof.
  split_and!; [lia|lia|repeat constructor|reflexivity|].
  intros Hmono. specialize (Hmono 0%nat 1%nat 0 (-1) ltac:(lia) eq_refl eq_refl). lia.
Qed.

(** C3, amended: for a page size above zero, any total and a slot list
    sorted by position, on either viewport, the table is non-decreasing when
    every slot fits the page it starts on: counted from its position plus
    the cells of the slots before it, its cells do not reach beyond the end
    of the page that holds the first of them. *)
Theorem calculatePageOffsets_monotone
    (pageSize totalCount : Z) (slots : list Slot) (isMobile : bool) :
  0 < pageSize →
  sortedByPosition slots →
  fitsPages pageSize isMobile 0 slots →
  nonDecreasing (calculatePageOffsets pageSize totalCount (Some slots) isMobile).
Proof.
  intros Hp Hslots Hfits.
  by apply StronglySorted_nonDecreasing, calculatePageOffsets_sorted_fits.
Qed.

Lemma calculatePageOffsets_monotone_witness :
  calculatePageOffsets 25 100 (Some [heroAt 3 2 2; heroAt 10 1 3; heroAt 30 2 3]) false
  = [0; 18; 37; 62; 87]
  ∧ nonDecreasing
      (calculatePageOffsets 25 100 (Some [heroAt 3 2 2; heroAt 10 1 3; heroAt 30 2 3]) false).
Proof.
  split; [reflexivity|].
  apply calculatePageOffsets_monotone.
  - lia.
  - repeat constructor; cbn; lia.
  - cbn. vm_compute. split_and!; (done || discriminate).
Defined.

(** Slots of at most one cell fit every page, so for them, and so on the
    mobile viewport, nothing more than the order of the list is asked. *)
Lemma calculatePageOffsets_single_cell_monotone
    (pageSize totalCount : Z) (slots : list Slot) (isMobile : bool) :
  0 < pageSize →
  sortedByPosition slots →
  Forall (λ s, slotCells isMobile s <= 1) slots →
  nonDecreasing (calculatePageOffsets pageSize totalCount (Some slots) isMobile).
Proof.
  intros Hp Hslots Hsizes.
  apply StronglySorted_nonDecreasing, calculatePageOffsets_sorted_fits; [done| |done].
  by apply fitsPages_single_cell.
Qed.

(** On the mobile viewport nothing is asked of the spans. *)
Lemma calculatePageOffsets_mobile_monotone
    (pageSize totalCount : Z) (slots : list Slot) :
  0 < pageSize →
  sortedByPosition slots →
  nonDecreasing (calculatePageOffsets pageSize totalCount (Some slots) true).
Proof.
  intros Hp Hslots.
  apply StronglySorted_nonDecreasing, calculatePageOffsets_sorted; [done| |done].
  apply Forall_forall. intros s _. cbn. lia.
Qed.

(** ** Determinism *)

Import Closures.

Lemma alter_held (f : PState → PState) (env : nat) (heap : gmap nat PState) (st : PState) :
  heap !! env = Some st → alter f env heap = <[env := f st]> heap.
Proof.
  intros Hst. apply map_eq. intros k. destruct (decide (k = env)) as [->|Hne].
  - by rewrite lookup_alter_eq, lookup_insert_eq, Hst.
  - by rewrite lookup_alter_ne, lookup_insert_ne.
Qed.

(** A turn of the loop changes the record of its call as [processSlot]
    says, and no other record. *)
Lemma processSlotAt_held (pageSize : Z) (isMobile : bool) (env : nat)
    (heap : gmap nat PState) (st : PState) (slot : Slot) :
  heap !! env = Some st →
  processSlotAt pageSize isMobile env heap slot
  = <[env := processSlot pageSize isMobile st slot]> heap.
Proof.
  intros Hst. unfold processSlotAt, fillPagesAt, skipContentAt.
  rewrite (alter_held _ env heap st Hst).
  rewrite (alter_held _ env _ (fillPages pageSize (position slot) st))
    by apply lookup_insert_eq.
  by rewrite insert_insert_eq.
Qed.

Lemma processSlotsAt_held (pageSize : Z) (isMobile : bool) (env : nat)
    (slots : list Slot) (heap : gmap nat PState) (st : PState) :
  heap !! env = Some st →
  fold_left (processSlotAt pageSize isMobile env) slots heap
  = <[env := processSlots pageSize isMobile st slots]> heap.
Proof.
  revert heap st. induction slots as [|slot slots IH]; intros heap st Hst.
  - cbn. by rewrite insert_id.
  - cbn [fold_left]. rewrite (processSlotAt_held _ _ _ _ st) by done.
    rewrite (IH _ (processSlot pageSize isMobile st slot)) by apply lookup_insert_eq.
    by rewrite insert_insert_eq.
Qed.

(** A call on a heap returns what the function of the four arguments
    returns, and adds the record of the call to the heap. *)
Lemma calculatePageOffsetsOn_run (heap : gmap nat PState) (pageSize totalCount : Z)
    (ampSlots : option (list Slot)) (isMobile : bool) :
  ∃ st, calculatePageOffsetsOn heap pageSize totalCount ampSlots isMobile
        = (calculatePageOffsets pageSize totalCount ampSlots isMobile,
           <[fresh (dom heap) := st]> heap).
Proof.
  unfold calculatePageOffsetsOn, calculatePageOffsets, fillPagesAt.
  set (env := fresh (dom heap)).
  set (st1 := match ampSlots with
              | Some slots => processSlots pageSize isMobile initial slots
              | None => initial
              end).
  assert (match ampSlots with
          | Some slots =>
              fold_left (processSlotAt pageSize isMobile env) slots
                (<[env := mkPState [] 0 0]> heap)
          | None => <[env := mkPState [] 0 0]> heap
          end = <[env := st1]> heap) as ->.
  { subst st1. destruct ampSlots as [slots|]; [|done].
    rewrite (processSlotsAt_held _ _ _ _ _ initial) by apply lookup_insert_eq.
    by rewrite insert_insert_eq. }
  exists (fillPages pageSize totalCount st1).
  rewrite (alter_held _ env _ st1) by apply lookup_insert_eq.
  by rewrite insert_insert_eq, lookup_insert_eq.
Qed.

(** C9: two runs on the same page size, total, slot list and viewport flag
    return the same table.  A call works on bindings of [pages],
    [processed] and [offset] that it makes itself, so whatever records
    earlier calls have left on the heap, the table is the same; a second
    run made after the first returns what the first returned; the table is
    the function [calculatePageOffsets] of the four arguments; and the
    records of earlier calls are left as they were. *)
Theorem calculatePageOffsets_deterministic (heap heap' : gmap nat PState)
    (pageSize totalCount : Z) (ampSlots : option (list Slot)) (isMobile : bool) :
  (calculatePageOffsetsOn heap pageSize totalCount ampSlots isMobile).1
  = (calculatePageOffsetsOn heap' pageSize totalCount ampSlots isMobile).1
  ∧ (calculatePageOffsetsOn
       (calculatePageOffsetsOn heap pageSize totalCount ampSlots isMobile).2
       pageSize totalCount ampSlots isMobile).1
    = (calculatePageOffsetsOn heap pageSize totalCount ampSlots isMobile).1
  ∧ (calculatePageOffsetsOn heap pageSize totalCount ampSlots isMobile).1
    = calculatePageOffsets pageSize totalCount ampSlots isMobile
  ∧ heap ⊆ (calculatePageOffsetsOn heap pageSize totalCount ampSlots isMobile).2.
Proof.
  destruct (calculatePageOffsetsOn_run heap pageSize totalCount ampSlots isMobile)
    as [st Hrun].
  destruct (calculatePageOffsetsOn_run heap' pageSize totalCount ampSlots isMobile)
    as [st' Hrun'].
  rewrite Hrun, Hrun'. cbn [fst snd].
  destruct (calculatePageOffsetsOn_run (<[fresh (dom heap) := st]> heap)
              pageSize totalCount ampSlots isMobile) as [st2 ->].
  split_and!; [done|done|done|].
  apply insert_subseteq, not_elem_of_dom, is_fresh.
Qed.

(** * Properties of the enrichment *)

Import Enrich.

(** ** Cells of a slot on the mobile viewport *)

Lemma slotCells_slotSize (isMobile : bool) (slot : Slot) :
  slotCells isMobile slot = slotSize isMobile slot.
Proof. destruct isMobile; cbn; lia. Qed.

Lemma processSlots_mobile_setSpan (pageSize r c : Z) (slots : list Slot) (st : PState) :
  processSlots pageSize true st (setSpan r c <$> slots)
  = processSlots pageSize true st slots.
Proof.
  revert st. induction slots as [|slot slots IH]; intros st; [done|].
  rewrite fmap_cons, !processSlots_cons, IH. reflexivity.
Qed.

Lemma markAmplience_setSpan (r c : Z) (slot : Slot) :
  markAmplience (setSpan r c slot) = setSpan r c (markAmplience slot).
Proof. reflexivity. Qed.

Lemma placeSlots_mobile_setSpan {H : Type} (pageSize pageBase r c : Z)
    (rest : list Slot) (i : nat) (its : list (Item H)) (rs : Z) (sto : list Slot) :
  placeSlots pageSize pageBase true (setSpan r c <$> rest) i
    (mkEState its rs (setSpan r c <$> sto))
  = let st := placeSlots pageSize pageBase true rest i (mkEState its rs sto) in
    mkEState (items st) (reservedSpaces st) (setSpan r c <$> store st).
Proof.
  revert i its rs sto. induction rest as [|slot rest IH]; intros i its rs sto; [done|].
  rewrite fmap_cons. cbn [placeSlots]. cbn [position setSpan].
  destruct (position slot <? pageBase); [apply IH|].
  destruct (position slot >=? pageBase + pageSize); [done|].
  cbn [store items reservedSpaces slotSize].
  rewrite markAmplience_setSpan, <- list_fmap_insert. apply IH.
Qed.

(** On the mobile viewport a turn of the calculator's loop is the skip of
    one cell. *)
Lemma processSlot_mobile (pageSize : Z) (st : PState) (slot : Slot) :
  processSlot pageSize true st slot
  = skipContent pageSize 1 (fillPages pageSize (position slot) st).
Proof. reflexivity. Qed.

Lemma processSlots_mobile_offset (pageSize : Z) (slots : list Slot) (st : PState) :
  offset (processSlots pageSize true st slots) = offset st + zlen slots.
Proof.
  revert st. induction slots as [|slot slots IH]; intros st.
  - cbn. lia.
  - rewrite processSlots_cons, IH, processSlot_mobile. cbn [offset skipContent fillPages length].
    lia.
Qed.

(** The mobile run is the wide run of the same slots with spans of 1 by 1. *)
Lemma processSlots_mobile_single (pageSize : Z) (slots : list Slot) (st : PState) :
  processSlots pageSize true st slots
  = processSlots pageSize false st (setSpan 1 1 <$> slots).
Proof.
  revert st. induction slots as [|slot slots IH]; intros st; [done|].
  rewrite fmap_cons, !processSlots_cons, IH. reflexivity.
Qed.

(** A slot that the enrichment places on the page, on the mobile viewport:
    it is spliced in and marked, and the reserved spaces stay as they are. *)
Lemma placeSlots_mobile_placed {H : Type} (pageSize pageBase : Z) (slot : Slot)
    (rest : list Slot) (i : nat) (est : EState H) :
  pageBase <= position slot < pageBase + pageSize →
  placeSlots pageSize pageBase true (slot :: rest) i est
  = placeSlots pageSize pageBase true rest (S i)
      (mkEState
         (spliceIn (items est) (position slot - pageBase - reservedSpaces est) (ItemSlot i))
         (reservedSpaces est)
         (<[i := markAmplience slot]> (store est))).
Proof.
  intros Hpos. cbn [placeSlots].
  assert ((position slot <? pageBase) = false) as -> by lia.
  assert ((position slot >=? pageBase + pageSize) = false) as -> by lia.
  cbn [slotSize]. by replace (reservedSpaces est + (1 - 1)) with (reservedSpaces est) by lia.
Qed.

Lemma placeSlots_mobile_reserved {H : Type} (pageSize pageBase : Z)
    (slots : list Slot) (i : nat) (est : EState H) :
  reservedSpaces (placeSlots pageSize pageBase true slots i est) = reservedSpaces est.
Proof.
  revert i est. induction slots as [|slot slots IH]; intros i est; [done|].
  cbn [placeSlots].
  destruct (position slot <? pageBase); [apply IH|].
  destruct (position slot >=? pageBase + pageSize); [done|].
  rewrite IH. cbn [reservedSpaces slotSize]. lia.
Qed.

Lemma placeSlots_mobile_single {H : Type} (pageSize pageBase : Z)
    (rest : list Slot) (i : nat) (its : list (Item H)) (rs : Z) (sto : list Slot) :
  placeSlots pageSize pageBase false (setSpan 1 1 <$> rest) i
    (mkEState its rs (setSpan 1 1 <$> sto))
  = let st := placeSlots pageSize pageBase true rest i (mkEState its rs sto) in
    mkEState (items st) (reservedSpaces st) (setSpan 1 1 <$> store st).
Proof.
  revert i its rs sto. induction rest as [|slot rest IH]; intros i its rs sto; [done|].
  rewrite fmap_cons. cbn [placeSlots]. cbn [position setSpan].
  destruct (position slot <? pageBase); [apply IH|].
  destruct (position slot >=? pageBase + pageSize); [done|].
  cbn [store items reservedSpaces slotSize rows cols].
  rewrite markAmplience_setSpan, <- list_fmap_insert. apply IH.
Qed.

(** C8: on the mobile viewport a slot counts for exactly one cell in
    [calculatePageOffsets] and in [enrichResults], whatever its rows and
    columns are.  In the calculator a turn of the loop skips one cell: the
    offset shift grows by 1 for each slot, by the number of the slots over
    the list, and the table is the one of the wide viewport for the same
    slots with spans of 1 by 1.  In the enrichment a slot placed on the page
    reserves [1 - 1 = 0] further spaces: it is spliced in at its position on
    the page less the spaces reserved so far, which stay as they are over
    the whole loop, and the sequence is the one of the wide viewport for the
    same slots with spans of 1 by 1. *)
Theorem mobile_slot_one_cell {H : Type} (pageSize pageBase totalCount : Z)
    (st : PState) (slot : Slot) (slots rest : list Slot) (i : nat) (est : EState H)
    (res : option (SearchResult H)) (pgs : list Z) :
  pageBase <= position slot < pageBase + pageSize →
  processSlot pageSize true st slot
  = skipContent pageSize 1 (fillPages pageSize (position slot) st)
  ∧ offset (processSlot pageSize true st slot) = offset st + 1
  ∧ offset (processSlots pageSize true st slots) = offset st + zlen slots
  ∧ calculatePageOffsets pageSize totalCount (Some slots) true
    = calculatePageOffsets pageSize totalCount (Some (setSpan 1 1 <$> slots)) false
  ∧ placeSlots pageSize pageBase true (slot :: rest) i est
    = placeSlots pageSize pageBase true rest (S i)
        (mkEState
           (spliceIn (items est) (position slot - pageBase - reservedSpaces est) (ItemSlot i))
           (reservedSpaces est)
           (<[i := markAmplience slot]> (store est)))
  ∧ reservedSpaces (placeSlots pageSize pageBase true slots i est) = reservedSpaces est
  ∧ (enrichResults res pageSize (Some slots) pgs true).1
    = (enrichResults res pageSize (Some (setSpan 1 1 <$> slots)) pgs false).1.
Proof.
  intros Hpos. split_and!.
  - apply processSlot_mobile.
  - reflexivity.
  - apply processSlots_mobile_offset.
  - unfold calculatePageOffsets. by rewrite processSlots_mobile_single.
  - by apply placeSlots_mobile_placed.
  - apply placeSlots_mobile_reserved.
  - unfold enrichResults.
    destruct res as [res|]; [|done]. destruct (hits res) as [hs|]; [|done].
    cbn zeta. rewrite placeSlots_mobile_single. reflexivity.
Qed.

Lemma mobile_slot_one_cell_witness :
  0 <= position (heroAt 1 2 3) < 0 + 3
  ∧ offset (processSlot 3 true initial (heroAt 1 2 3)) = offset initial + 1
  ∧ offset (processSlots 3 true initial [heroAt 1 2 3; heroAt 4 2 2]) = offset initial + 2
  ∧ calculatePageOffsets 3 10 (Some [heroAt 1 2 3; heroAt 4 2 2]) true = [0; 2; 4; 7; 10]
  ∧ items (placeSlots 3 0 true [heroAt 1 2 3; heroAt 2 2 2] 0
             (mkEState (ItemHit <$> fourHits) 0 [heroAt 1 2 3; heroAt 2 2 2]))
    = [ItemHit "a"; ItemSlot 0; ItemSlot 1; ItemHit "b"; ItemHit "c"; ItemHit "d"].
Proof.
  pose proof (mobile_slot_one_cell 3 0 10 initial (heroAt 1 2 3)
                [heroAt 1 2 3; heroAt 4 2 2] [heroAt 2 2 2] 0
                (mkEState (ItemHit <$> fourHits) 0 [heroAt 1 2 3; heroAt 2 2 2])
                (Some (mkSearchResult (Some fourHits) 0 10)) tableOfTen
                ltac:(cbn; lia))
    as (_ & Hone & Hall & Htable & Hplaced & _ & _).
  split; [cbn; lia|]. split; [exact Hone|]. split; [exact Hall|]. split.
  - rewrite Htable. reflexivity.
  - rewrite Hplaced. reflexivity.
Defined.

(** ** No slots *)

Lemma findIndexFrom_spec (f : Z → bool) (l : list Z) (i : Z) :
  (findIndexFrom f l i = -1 ∧ Forall (λ x, f x = false) l)
  ∨ (∃ (k : nat) (x : Z),
       findIndexFrom f l i = i + Z.of_nat k ∧ l !! k = Some x ∧ f x = true).
Proof.
  revert i. induction l as [|y l IH]; intros i; cbn [findIndexFrom].
  - left. split; [done|constructor].
  - destruct (f y) eqn:Hy.
    + right. exists 0%nat, y. split_and!; [lia|done|done].
    + destruct (IH (i + 1)) as [[-> Hall]|(k & x & -> & Hk & Hx)].
      * left. split; [done|by constructor].
      * right. exists (S k), x. split_and!; [lia|done|done].
Qed.

(** The table without slots: page [k] starts at [k * pageSize]. *)
Lemma calculatePageOffsets_no_slots (pageSize totalCount : Z) (isMobile : bool) :
  0 < pageSize →
  calculatePageOffsets pageSize totalCount (Some []) isMobile
  = (λ k, k * pageSize) <$> seqZ 0 (Z.max 0 (totalCount / pageSize + 1)).
Proof.
  intros Hp. unfold calculatePageOffsets, processSlots. cbn [fold_left].
  rewrite fillPages_pages by done. cbn [pages offset initial length app].
  unfold pageNumber. rewrite Z.add_0_r, Z.sub_0_r.
  apply list_fmap_ext. intros _ k _. lia.
Qed.

Lemma at_no_slots (pageSize n k : Z) :
  at_ ((λ k, k * pageSize) <$> seqZ 0 n) k
  = if decide (0 <= k < n) then Some (k * pageSize) else None.
Proof.
  unfold at_. destruct (Z.ltb_spec k 0) as [Hk|Hk].
  { rewrite decide_False by lia. done. }
  rewrite list_lookup_fmap. case_decide as Hkn.
  - rewrite (lookup_seqZ_lt 0 n (Z.to_nat k)) by lia. rewrite Z2Nat.id by lia. done.
  - rewrite (lookup_seqZ_ge 0 n (Z.to_nat k)) by lia. done.
Qed.

Lemma sliceTo_all {A : Type} (l : list A) (e : Z) :
  zlen l <= e → sliceTo l (Some e) = l.
Proof.
  intros He. unfold sliceTo. destruct (Z.ltb_spec e 0); [lia|].
  apply take_ge. lia.
Qed.

(** With the table made without slots, the page that the fetch offset
    belongs to takes every product that the search can return for it. *)
Lemma sfccCount_no_slots (pageSize totalCount offset : Z) :
  0 < pageSize →
  0 <= offset <= totalCount →
  let pgs := (λ k, k * pageSize) <$> seqZ 0 (Z.max 0 (totalCount / pageSize + 1)) in
  ∃ count, sfccCountOf pgs (pageIdOf pgs offset) totalCount = Some count
           ∧ Z.min pageSize (totalCount - offset) <= count.
Proof.
  intros Hp Hoff pgs.
  pose proof (pageNumber_bounds pageSize Hp totalCount) as Hb. unfold pageNumber in Hb.
  assert (0 <= totalCount / pageSize) as Hq by (apply Z.div_pos; lia).
  set (n := Z.max 0 (totalCount / pageSize + 1)) in *.
  assert (zlen pgs = n) as Hlen.
  { unfold pgs. rewrite length_fmap, length_seqZ. lia. }
  unfold pageIdOf, findIndex, sfccCountOf.
  destruct (findIndexFrom_spec (λ pageIndex, offset <? pageIndex) pgs 0)
    as [[-> Hall]|(k & x & -> & Hk & Hx)].
  - change (-1 - 1 =? -2) with true. cbv iota. rewrite Hlen.
    replace (n - 1 + 1) with n by lia.
    unfold pgs. rewrite !at_no_slots.
    rewrite decide_True by lia. rewrite decide_False by lia. cbn [default].
    eexists. split; [done|].
    rewrite Forall_forall in Hall.
    assert ((n - 1) * pageSize ∈ pgs) as Hin.
    { unfold pgs. apply list_elem_of_fmap. exists (n - 1). split; [done|].
      apply elem_of_seqZ. lia. }
    apply Hall in Hin. apply Z.ltb_ge in Hin. lia.
  - apply Z.ltb_lt in Hx.
    unfold pgs in Hk. rewrite list_lookup_fmap in Hk.
    destruct (seqZ 0 n !! k) as [y|] eqn:Hy; [|done].
    apply lookup_seqZ in Hy as [-> Hkn]. cbn in Hk. injection Hk as <-.
    assert (1 <= Z.of_nat k) as Hk1 by nia.
    destruct (Z.eqb_spec (0 + Z.of_nat k - 1) (-2)) as [?|_]; [lia|].
    unfold pgs. rewrite !at_no_slots.
    rewrite decide_True by lia. rewrite decide_True by lia. cbn [default].
    unfold id. eexists. split; [done|]. lia.
Qed.

(** C4, as stated, fails for a result that holds more hits than the page
    takes: with page size 3, a result of four hits at offset 0 is cut to
    three.  It fails as well for a result with a negative offset, which is
    taken for a page before the first one: no hit is returned. *)
Lemma enrichResults_truncates_long_result :
  (enrichResults (Some (mkSearchResult (Some fourHits) 0 4)) 3 (Some [])
     (calculatePageOffsets 3 4 (Some []) false) false
   = (Some [ItemHit "a"; ItemHit "b"; ItemHit "c"], Some [])
   ∧ enrichResults (Some (mkSearchResult (Some fourHits) 0 4)) 3 (Some [])
       (calculatePageOffsets 3 4 (Some []) false) false
     ≠ (Some (ItemHit <$> fourHits), Some []))
  ∧ (enrichResults (Some (mkSearchResult (Some fourHits) (-1) 10)) 4 None
       (calculatePageOffsets 4 10 None false) false
     = (Some [], None)
     ∧ enrichResults (Some (mkSearchResult (Some fourHits) (-1) 10)) 4 None
         (calculatePageOffsets 4 10 None false) false
       ≠ (Some (ItemHit <$> fourHits), None)).
Proof.
  split; (split; [reflexivity|vm_compute; discriminate]).
Qed.

(** C4, amended: with an empty or absent slot list and the offset table made
    for the same page size and total, [enrichResults] returns the hits
    unchanged and in their order when the offset of the result is not
    negative and the result holds no more hits than the page size and the
    total leave for it. *)
Theorem enrichResults_no_slots {H : Type} (hs : list H) (offset totalCount pageSize : Z)
    (ampSlots : option (list Slot)) (isMobile : bool) :
  0 < pageSize →
  0 <= offset →
  zlen hs <= pageSize →
  offset + zlen hs <= totalCount →
  ampSlots = None ∨ ampSlots = Some [] →
  enrichResults (Some (mkSearchResult (Some hs) offset totalCount)) pageSize ampSlots
    (calculatePageOffsets pageSize totalCount ampSlots isMobile) isMobile
  = (Some (ItemHit <$> hs), ampSlots).
Proof.
  intros Hp Hoff Hlen Htotal Hslots.
  assert (calculatePageOffsets pageSize totalCount ampSlots isMobile
          = (λ k, k * pageSize) <$> seqZ 0 (Z.max 0 (totalCount / pageSize + 1))) as ->.
  { destruct Hslots as [->| ->]; [rewrite calculatePageOffsets_absent|];
      by apply calculatePageOffsets_no_slots. }
  destruct (sfccCount_no_slots pageSize totalCount offset Hp ltac:(lia))
    as (count & Hcount & Hmin).
  unfold enrichResults. cbn [hits resultOffset total]. cbn zeta.
  rewrite Hcount, sliceTo_all by (rewrite length_fmap; lia).
  by destruct Hslots as [->| ->].
Qed.

Lemma enrichResults_no_slots_witness :
  enrichResults (Some (mkSearchResult (Some fourHits) 4 8)) 4 None
    (calculatePageOffsets 4 8 None true) true
  = (Some (ItemHit <$> fourHits), None).
Proof.
  apply enrichResults_no_slots.
  - lia.
  - lia.
  - cbn. lia.
  - cbn. lia.
  - by left.
Defined.

(** ** A slot at position 0 *)

Section FirstPage.

Variable pageSize : Z.
Hypothesis pageSize_pos : 0 < pageSize.

(** Once the second page is made, the start of the table stays. *)
Lemma fillPages_second_page (upTo : Z) (st : PState) (x : Z) (tl : list Z) :
  pages st = 0 :: x :: tl →
  ∃ tl', pages (fillPages pageSize upTo st) = 0 :: x :: tl'.
Proof.
  intros Hpages. rewrite fillPages_pages by done. rewrite Hpages. eauto.
Qed.

Lemma processSlot_second_page (isMobile : bool) (st : PState) (slot : Slot)
    (x : Z) (tl : list Z) :
  pages st = 0 :: x :: tl →
  ∃ tl', pages (processSlot pageSize isMobile st slot) = 0 :: x :: tl'.
Proof.
  intros Hpages. unfold processSlot, skipContent.
  destruct (fillPages_second_page (position slot) st x tl Hpages) as [tl1 H1].
  eapply fillPages_second_page. cbn [pages]. exact H1.
Qed.

Lemma processSlots_second_page (isMobile : bool) (slots : list Slot) (st : PState)
    (x : Z) (tl : list Z) :
  pages st = 0 :: x :: tl →
  ∃ tl', pages (processSlots pageSize isMobile st slots) = 0 :: x :: tl'.
Proof.
  revert st tl. induction slots as [|slot slots IH]; intros st tl Hpages; [by eexists|].
  rewrite processSlots_cons.
  destruct (processSlot_second_page isMobile st slot x tl Hpages) as [tl1 H1].
  by eapply IH.
Qed.

(** Filling from a first page that is not full: either no page is made, or
    the second page is made with a shift below the page size. *)
Lemma fillPages_first_page (upTo u o : Z) :
  o < pageSize →
  (pages (fillPages pageSize upTo (mkPState [0] u o)) = [0]
   ∧ upTo + o < pageSize)
  ∨ (∃ tl, pages (fillPages pageSize upTo (mkPState [0] u o)) = 0 :: (pageSize - o) :: tl
           ∧ pageSize <= upTo + o).
Proof.
  intros Ho. rewrite fillPages_pages by done. cbn [pages offset length].
  pose proof (pageNumber_bounds pageSize pageSize_pos (upTo + o)) as Hq.
  destruct (Z_lt_le_dec (upTo + o) pageSize) as [Hlt|Hge].
  - left. split; [|done].
    replace (Z.max 0 _) with 0 by nia. reflexivity.
  - right. rewrite seqZ_cons by nia. cbn [fmap list_fmap app].
    eexists. split; [|done]. do 2 f_equal. lia.
Qed.

Lemma fillPages_openFirstPage (upTo : Z) (st : PState) :
  0 <= upTo →
  openFirstPage pageSize st →
  openFirstPage pageSize (fillPages pageSize upTo st).
Proof.
  intros HupTo [(Hpages & Hu & Hfilled)|(x & tl & Hpages & Hx)].
  - destruct st as [pgs u o]. cbn [pages processed offset] in *. subst pgs.
    unfold filled in Hfilled. cbn in Hfilled.
    destruct (fillPages_first_page upTo u o ltac:(lia)) as [[Hp _]|(tl & Hp & _)].
    + left. split_and!; [done|done|by apply fillPages_filled].
    + right. exists (pageSize - o), tl. split; [done|lia].
  - right. destruct (fillPages_second_page upTo st x tl Hpages) as [tl' ->]. eauto.
Qed.

(** A slot behind position 0 that, if it begins on the first page, ends on
    it: the second page, if the slot makes it, starts behind product 0. *)
Lemma processSlot_openFirstPage (isMobile : bool) (st : PState) (slot : Slot) :
  0 < position slot →
  (position slot + offset st < pageSize →
   position slot + offset st + slotCells isMobile slot <= pageSize) →
  openFirstPage pageSize st →
  openFirstPage pageSize (processSlot pageSize isMobile st slot).
Proof.
  intros Hpos Hfit Hst.
  pose proof (fillPages_openFirstPage (position slot) st ltac:(lia) Hst) as Hst1.
  unfold processSlot, skipContent.
  pose proof (fillPages_offset pageSize (position slot) st) as Hoff.
  pose proof (fillPages_processed pageSize (position slot) st) as Hproc.
  destruct (fillPages pageSize (position slot) st) as [pgs1 u1 o1].
  cbn [pages processed offset] in *. subst u1 o1.
  destruct Hst1 as [(Hpages & _ & Hfilled)|(x & tl & Hpages & Hx)];
    cbn [pages processed offset] in *; subst pgs1.
  - unfold filled in Hfilled. cbn in Hfilled.
    specialize (Hfit ltac:(lia)).
    destruct (fillPages_first_page (position slot) (position slot)
                (offset st + slotCells isMobile slot) ltac:(lia))
      as [[Hp Hlt]|(tl & Hp & Hge)].
    + left. split_and!; [done|cbn; lia|by apply fillPages_filled].
    + right. eexists _, tl. split; [exact Hp|lia].
  - right.
    destruct (fillPages_second_page (position slot)
                (mkPState (0 :: x :: tl) (position slot)
                   (offset st + slotCells isMobile slot)) x tl eq_refl) as [tl' ->].
    eauto.
Qed.

Lemma processSlots_openFirstPage (isMobile : bool) (slots : list Slot) (st : PState) :
  Forall (λ s, 0 < position s) slots →
  fitsFirstPage pageSize isMobile (offset st) slots →
  openFirstPage pageSize st →
  openFirstPage pageSize (processSlots pageSize isMobile st slots).
Proof.
  intros Hall. revert st.
  induction Hall as [|slot slots Hpos Hall IH]; intros st Hfits Hst; [done|].
  rewrite processSlots_cons. cbn [fitsFirstPage] in Hfits.
  destruct (Z.ltb_spec (position slot + offset st) pageSize) as [Hlt|Hge].
  - destruct Hfits as [Hfit Hfits].
    apply IH; [by rewrite processSlot_offset|].
    by apply processSlot_openFirstPage.
  - right. destruct Hst as [(Hpages & Hu & Hfilled)|(x & tl & Hpages & Hx)].
    + destruct st as [pgs u o]. cbn [pages processed offset] in *. subst pgs.
      unfold filled in Hfilled. cbn in Hfilled.
      destruct (fillPages_first_page (position slot) u o ltac:(lia))
        as [[_ Hlt]|(tl & Hp & _)]; [lia|].
      assert (∃ tl1, pages (processSlot pageSize isMobile (mkPState [0] u o) slot)
                     = 0 :: (pageSize - o) :: tl1) as [tl1 H1].
      { unfold processSlot, skipContent. eapply fillPages_second_page.
        cbn [pages]. exact Hp. }
      destruct (processSlots_second_page isMobile slots _ _ tl1 H1) as [tl' ->].
      exists (pageSize - o), tl'. split; [done|lia].
    + destruct (processSlot_second_page isMobile st slot x tl Hpages) as [tl1 H1].
      destruct (processSlots_second_page isMobile slots _ x tl1 H1) as [tl' ->]. eauto.
Qed.

(** The first slot, at position 0 and of fewer cells than a page has,
    leaves the first page open. *)
Lemma processSlot_first (isMobile : bool) (slot : Slot) :
  position slot = 0 →
  slotCells isMobile slot < pageSize →
  processSlot pageSize isMobile initial slot = mkPState [0] 0 (slotCells isMobile slot).
Proof.
  intros Hpos Hsize. unfold processSlot, skipContent.
  assert (fillPages pageSize (position slot) initial = mkPState [0] 0 0) as ->.
  { unfold fillPages. rewrite Hpos. cbn [initial offset pages processed].
    unfold pageNumber. cbn [Z.add]. rewrite Z.div_0_l by lia. reflexivity. }
  cbn [pages processed offset Z.add].
  destruct (fillPages_first_page 0 0 (slotCells isMobile slot) Hsize)
    as [[Hp _]|(tl & _ & Hge)]; [|lia].
  rewrite Z.add_0_l. unfold fillPages in *. cbn [pages processed offset] in *.
  by rewrite Hp.
Qed.

(** The table of a list whose first slot is at position 0 and has fewer
    cells than a page, whose other slots lie behind position 0, and in
    which a slot that begins on the first page ends on it. *)
Lemma calculatePageOffsets_firstPageOpen
    (totalCount : Z) (first : Slot) (rest : list Slot) (isMobile : bool) :
  position first = 0 →
  slotCells isMobile first < pageSize →
  Forall (λ s, 0 < position s) rest →
  fitsFirstPage pageSize isMobile (slotCells isMobile first) rest →
  firstPageOpen (calculatePageOffsets pageSize totalCount (Some (first :: rest)) isMobile).
Proof.
  intros Hpos Hsize Hrest Hfits. unfold calculatePageOffsets.
  rewrite processSlots_cons, processSlot_first by done.
  pose proof (processSlots_openFirstPage isMobile rest
                (mkPState [0] 0 (slotCells isMobile first)) Hrest Hfits) as Hst.
  destruct Hst as [(Hpages & Hu & Hfilled)|(x & tl & Hpages & Hx)].
  { left. split_and!; [done|done|]. unfold filled. cbn. lia. }
  - destruct (processSlots pageSize isMobile _ rest) as [pgs u o].
    cbn [pages processed offset] in *. subst pgs.
    unfold filled in Hfilled. cbn in Hfilled.
    destruct (fillPages_first_page totalCount u o ltac:(lia)) as [[Hp _]|(tl & Hp & _)].
    + by left.
    + right. exists (pageSize - o), tl. split; [done|lia].
  - right. destruct (fillPages_second_page totalCount _ x tl Hpages) as [tl' ->]. eauto.
Qed.

End FirstPage.

(** Offset 0 is on page 0 of a table whose first page is open. *)
Lemma pageIdOf_firstPageOpen (pgs : list Z) :
  firstPageOpen pgs → pageIdOf pgs 0 = 0.
Proof.
  intros [->|(x & tl & -> & Hx)]; [reflexivity|].
  unfold pageIdOf, findIndex. cbn [findIndexFrom Z.ltb Z.compare].
  apply Z.ltb_lt in Hx. rewrite Hx. reflexivity.
Qed.

Lemma spliceIn_head {A : Type} (x y : A) (l : list A) (start : Z) :
  0 < start → ∃ l', spliceIn (x :: l) start y = x :: l'.
Proof.
  intros Hs. unfold spliceIn. destruct (Z.ltb_spec start 0); [lia|].
  destruct (Z.to_nat start) as [|k] eqn:Hk; [lia|].
  cbn. eauto.
Qed.

(** Slots placed behind the head of the sequence leave the head and the
    first object of the store alone. *)
Lemma placeSlots_keeps_head {H : Type} (pageSize pageBase : Z) (isMobile : bool)
    (rest : list Slot) (i : nat) (st : EState H) (x : Item H) (y : Slot) :
  (1 <= i)%nat →
  placedBehindHead pageSize pageBase isMobile (reservedSpaces st) rest →
  head (items st) = Some x →
  store st !! 0%nat = Some y →
  head (items (placeSlots pageSize pageBase isMobile rest i st)) = Some x
  ∧ store (placeSlots pageSize pageBase isMobile rest i st) !! 0%nat = Some y.
Proof.
  revert i st. induction rest as [|slot rest IH]; intros i st Hi Hbehind Hhead Hstore.
  - done.
  - cbn [placeSlots placedBehindHead] in *.
    destruct (position slot <? pageBase); [apply IH; (done || lia)|].
    destruct (position slot >=? pageBase + pageSize); [done|].
    destruct Hbehind as [Hidx Hbehind].
    apply IH; cbn [items reservedSpaces store].
    + lia.
    + done.
    + destruct (items st) as [|x' its]; [done|].
      cbn in Hhead. injection Hhead as ->.
      destruct (spliceIn_head x (ItemSlot i) its
                  (position slot - pageBase - reservedSpaces st) ltac:(lia))
        as [l' ->]. done.
    + rewrite list_lookup_insert_ne by lia. done.
Qed.

(** The first slot of the list, at the first position of page 0, heads the
    sequence of page 0 when the slots placed after it go behind the head. *)
Lemma enrichResults_first_of_page {H : Type} (hs : list H) (pageSize offset totalCount : Z)
    (first : Slot) (rest : list Slot) (pgs : list Z) (isMobile : bool) :
  0 < pageSize →
  position first = 0 →
  pageIdOf pgs offset = 0 →
  placedBehindHead pageSize 0 isMobile (slotSize isMobile first - 1) rest →
  ∃ (sequence : list (Item H)) (slots' : list Slot),
    enrichResults (Some (mkSearchResult (Some hs) offset totalCount)) pageSize
      (Some (first :: rest)) pgs isMobile
    = (Some sequence, Some slots')
    ∧ head sequence = Some (ItemSlot 0)
    ∧ slots' !! 0%nat = Some (markAmplience first).
Proof.
  intros Hp Hpos Hpage Hbehind.
  unfold enrichResults. cbn [hits resultOffset total]. cbn zeta.
  rewrite Hpage, Z.mul_0_l.
  do 2 eexists. split; [reflexivity|].
  cbn [placeSlots]. rewrite Hpos.
  assert ((0 <? 0) = false) as -> by done.
  assert ((0 >=? 0 + pageSize) = false) as -> by lia.
  cbn [items reservedSpaces store].
  apply placeSlots_keeps_head.
  - lia.
  - cbn [reservedSpaces]. by rewrite Z.add_0_l.
  - reflexivity.
  - reflexivity.
Qed.

(** C7, as stated, fails, in three ways, all with page size 3 and fetch
    offset 0.  On the wide viewport a slot of 2 by 2 cells at position 0 is
    not in the sequence at all: the table is [0; -1; 2; 5; 8], so offset 0 is
    taken for page 1.  Of two slots at position 0 the one that comes second
    in the list is put before the first.  And a slot at position 0 that
    follows a slot at position 5 in the list is never reached. *)
Lemma enrichResults_slot_not_first :
  (position (heroAt 0 2 2) = 0
   ∧ enrichResults (Some (mkSearchResult (Some fourHits) 0 10)) 3 (Some [heroAt 0 2 2])
       (calculatePageOffsets 3 10 (Some [heroAt 0 2 2]) false) false
     = (Some [ItemHit "a"; ItemHit "b"; ItemHit "c"], Some [heroAt 0 2 2]))
  ∧ (position (heroAt 0 1 1) = 0
     ∧ (enrichResults (Some (mkSearchResult (Some fourHits) 0 10)) 3
          (Some [heroAt 0 1 1; heroAt 0 1 2])
          (calculatePageOffsets 3 10 (Some [heroAt 0 1 1; heroAt 0 1 2]) true) true).1
       = Some [ItemSlot 1; ItemSlot 0; ItemHit "a"])
  ∧ (position (heroAt 0 1 1) = 0
     ∧ (enrichResults (Some (mkSearchResult (Some fourHits) 0 10)) 3
          (Some [heroAt 5 1 1; heroAt 0 1 1])
          (calculatePageOffsets 3 10 (Some [heroAt 5 1 1; heroAt 0 1 1]) true) true).1
       = Some [ItemHit "a"; ItemHit "b"; ItemHit "c"]).
Proof. split_and!; reflexivity. Qed.

(** C7, amended: for page size 3 and fetch offset 0 and a result with a
    hits array, when the offset table takes offset 0 for page 0, the first
    slot of the list is at position 0, and every slot that the loop places
    on that page after it is spliced in at an index of at least 1 (its
    position less the spaces reserved by the slots placed before it), the
    first element of the returned sequence is that slot, the very object of
    the list, now marked.  Nothing is asked of the slots at positions 3 and
    above. *)
Theorem enrichResults_slot_first {H : Type} (hs : list H) (totalCount : Z)
    (first : Slot) (rest : list Slot) (pgs : list Z) (isMobile : bool) :
  position first = 0 →
  pageIdOf pgs 0 = 0 →
  placedBehindHead 3 0 isMobile (slotSize isMobile first - 1) rest →
  ∃ (sequence : list (Item H)) (slots' : list Slot),
    enrichResults (Some (mkSearchResult (Some hs) 0 totalCount)) 3 (Some (first :: rest))
      pgs isMobile
    = (Some sequence, Some slots')
    ∧ head sequence = Some (ItemSlot 0)
    ∧ slots' !! 0%nat = Some (markAmplience first).
Proof.
  intros Hpos Hpage Hbehind. by apply enrichResults_first_of_page.
Qed.

Lemma enrichResults_slot_first_witness :
  calculatePageOffsets 3 10 (Some [heroAt 0 1 2; heroAt 2 1 1; heroAt 7 2 2]) false
  = [0; 1; 3; 6; 5; 8]
  ∧ ∃ (sequence : list (Item string)) (slots' : list Slot),
      enrichResults (Some (mkSearchResult (Some fourHits) 0 10)) 3
        (Some [heroAt 0 1 2; heroAt 2 1 1; heroAt 7 2 2])
        (calculatePageOffsets 3 10 (Some [heroAt 0 1 2; heroAt 2 1 1; heroAt 7 2 2]) false)
        false
      = (Some sequence, Some slots')
      ∧ head sequence = Some (ItemSlot 0)
      ∧ slots' !! 0%nat = Some (markAmplience (heroAt 0 1 2)).
Proof.
  split; [reflexivity|].
  apply (enrichResults_slot_first fourHits 10 (heroAt 0 1 2) [heroAt 2 1 1; heroAt 7 2 2]).
  - reflexivity.
  - reflexivity.
  - cbn. split; [lia|done].
Defined.

(** For the table that [calculatePageOffsets] makes of the same slot list,
    offset 0 is on page 0 when the slot at position 0 has fewer than 3
    cells, the other slots lie behind position 0, and a slot that begins on
    the first page ends on it. *)
Lemma enrichResults_slot_first_calculated {H : Type} (hs : list H) (totalCount : Z)
    (first : Slot) (rest : list Slot) (isMobile : bool) :
  position first = 0 →
  slotCells isMobile first < 3 →
  Forall (λ s, 0 < position s) rest →
  fitsFirstPage 3 isMobile (slotCells isMobile first) rest →
  placedBehindHead 3 0 isMobile (slotSize isMobile first - 1) rest →
  ∃ (sequence : list (Item H)) (slots' : list Slot),
    enrichResults (Some (mkSearchResult (Some hs) 0 totalCount)) 3 (Some (first :: rest))
      (calculatePageOffsets 3 totalCount (Some (first :: rest)) isMobile) isMobile
    = (Some sequence, Some slots')
    ∧ head sequence = Some (ItemSlot 0)
    ∧ slots' !! 0%nat = Some (markAmplience first).
Proof.
  intros Hpos Hsize Hrest Hfits Hbehind.
  apply enrichResults_first_of_page; [lia|done| |done].
  by apply pageIdOf_firstPageOpen, calculatePageOffsets_firstPageOpen.
Qed.

(** Slots of one cell each, the first at position 0 and the others behind
    it, meet every one of these conditions, as all slots do on the mobile
    viewport. *)
Lemma enrichResults_slot_first_single_cell {H : Type} (hs : list H) (totalCount : Z)
    (first : Slot) (rest : list Slot) (isMobile : bool) :
  position first = 0 →
  Forall (λ s, 0 < position s) rest →
  Forall (λ s, slotSize isMobile s = 1) (first :: rest) →
  ∃ (sequence : list (Item H)) (slots' : list Slot),
    enrichResults (Some (mkSearchResult (Some hs) 0 totalCount)) 3 (Some (first :: rest))
      (calculatePageOffsets 3 totalCount (Some (first :: rest)) isMobile) isMobile
    = (Some sequence, Some slots')
    ∧ head sequence = Some (ItemSlot 0)
    ∧ slots' !! 0%nat = Some (markAmplience first).
Proof.
  intros Hpos Hrest Hsizes.
  apply Forall_cons in Hsizes as [Hsize Hsizes].
  apply enrichResults_slot_first_calculated; [done| |done| |].
  - rewrite slotCells_slotSize. lia.
  - rewrite slotCells_slotSize, Hsize. clear Hsize.
    generalize 1 as shift.
    induction rest as [|slot rest IH]; intros shift; [done|].
    apply Forall_cons in Hsizes as [Hs Hsizes]. apply Forall_cons in Hrest as [_ Hrest].
    cbn [fitsFirstPage]. rewrite slotCells_slotSize, Hs.
    destruct (Z.ltb_spec (position slot + shift) 3); [|done].
    split; [lia|]. by apply IH.
  - rewrite Hsize. clear Hsize. change (1 - 1) with 0.
    induction rest as [|slot rest IH]; [done|].
    apply Forall_cons in Hsizes as [Hs Hsizes]. apply Forall_cons in Hrest as [Hp Hrest].
    cbn [placedBehindHead]. rewrite Hs.
    change (0 + (1 - 1)) with 0.
    destruct (Z.ltb_spec (position slot) 0); [lia|].
    destruct (position slot >=? 0 + 3); [done|].
    split; [lia|]. by apply IH.
Qed.

(** ** The marker on the slots *)

Lemma inPage_true (pageSize pageBase : Z) (slot : Slot) :
  inPage pageSize pageBase slot = true
  ↔ pageBase <= position slot < pageBase + pageSize.
Proof. unfold inPage. rewrite andb_true_iff, Z.leb_le, Z.ltb_lt. done. Qed.

Lemma marked_outside (pageSize pageBase : Z) (slot : Slot) :
  ¬ (pageBase <= position slot < pageBase + pageSize) →
  marked pageSize pageBase slot = slot.
Proof.
  intros Hout. unfold marked.
  destruct (inPage pageSize pageBase slot) eqn:Hin; [|done].
  by apply inPage_true in Hin.
Qed.

Lemma marked_inside (pageSize pageBase : Z) (slot : Slot) :
  pageBase <= position slot < pageBase + pageSize →
  marked pageSize pageBase slot = markAmplience slot.
Proof. intros Hin. unfold marked. by rewrite (proj2 (inPage_true _ _ _) Hin). Qed.

(** The loop over a list sorted by position: the objects seen before index
    [i] stay as they are, and each of the others ends up marked exactly when
    its position is in the range of the page. *)
Lemma placeSlots_store {H : Type} (pageSize pageBase : Z) (isMobile : bool)
    (rest : list Slot) (i : nat) (st : EState H) :
  sortedByPosition rest →
  drop i (store st) = rest →
  let st' := placeSlots pageSize pageBase isMobile rest i st in
  length (store st') = length (store st)
  ∧ (∀ j, (j < i)%nat → store st' !! j = store st !! j)
  ∧ (∀ k s, rest !! k = Some s →
       store st' !! (i + k)%nat = Some (marked pageSize pageBase s)).
Proof.
  intros Hsorted. revert i st.
  induction rest as [|slot rest IH]; intros i st Hdrop; cbn zeta.
  { split_and!; [done|done|]. intros k s Hk. by rewrite lookup_nil in Hk. }
  apply Sorted_StronglySorted in Hsorted; [|intros a b c; lia].
  apply StronglySorted_inv in Hsorted as [Hsorted Hle].
  apply StronglySorted_Sorted in Hsorted.
  assert (store st !! i = Some slot) as Hi.
  { rewrite <- (Nat.add_0_r i), <- lookup_drop, Hdrop. done. }
  assert (drop (S i) (store st) = rest) as Hdrop'.
  { rewrite (drop_S _ _ _ Hi) in Hdrop. by injection Hdrop. }
  cbn [placeSlots].
  destruct (Z.ltb_spec (position slot) pageBase) as [Hlow|Hlow].
  - destruct (IH Hsorted (S i) st Hdrop') as (Hlen & Hbefore & Hafter).
    split_and!; [done|intros j Hj; apply Hbefore; lia|].
    intros [|k] s Hk.
    + cbn in Hk. injection Hk as <-.
      rewrite Nat.add_0_r, Hbefore, Hi by lia.
      rewrite marked_outside by lia. done.
    + cbn in Hk. replace (i + S k)%nat with (S i + k)%nat by lia. by apply Hafter.
  - destruct (Z.geb_spec (position slot) (pageBase + pageSize)) as [Hhigh|Hhigh].
    + split_and!; [done|done|].
      intros k s Hk. rewrite <- lookup_drop, Hdrop, Hk.
      rewrite marked_outside; [done|].
      destruct k as [|k]; cbn in Hk.
      * injection Hk as <-. lia.
      * rewrite Forall_forall in Hle.
        apply list_elem_of_lookup_2, Hle in Hk. lia.
    + set (st1 := mkEState _ _ _).
      destruct (IH Hsorted (S i) st1) as (Hlen & Hbefore & Hafter).
      { unfold st1. cbn [store]. rewrite drop_insert_lt by lia. done. }
      unfold st1 in Hlen, Hbefore. cbn [store] in Hlen, Hbefore.
      rewrite length_insert in Hlen.
      split_and!; [done| |].
      * intros j Hj. rewrite Hbefore by lia. rewrite list_lookup_insert_ne by lia. done.
      * intros [|k] s Hk.
        -- cbn in Hk. injection Hk as <-.
           rewrite Nat.add_0_r, Hbefore by lia.
           rewrite list_lookup_insert_eq by (by eapply lookup_lt_Some).
           rewrite marked_inside by lia. done.
        -- cbn in Hk. replace (i + S k)%nat with (S i + k)%nat by lia. by apply Hafter.
Qed.

Lemma spliceIn_elem {A : Type} (l : list A) (start : Z) (y x : A) :
  x ∈ spliceIn l start y ↔ x = y ∨ x ∈ l.
Proof.
  unfold spliceIn. rewrite elem_of_app, elem_of_cons.
  rewrite <- (take_drop (if start <? 0 then Z.to_nat (zlen l + start) else Z.to_nat start) l)
    at 5.
  rewrite elem_of_app. tauto.
Qed.

Lemma placeSlots_items_mono {H : Type} (pageSize pageBase : Z) (isMobile : bool)
    (rest : list Slot) (i : nat) (st : EState H) (x : Item H) :
  x ∈ items st → x ∈ items (placeSlots pageSize pageBase isMobile rest i st).
Proof.
  revert i st. induction rest as [|slot rest IH]; intros i st Hx; [done|].
  cbn [placeSlots].
  destruct (position slot <? pageBase); [by apply IH|].
  destruct (position slot >=? pageBase + pageSize); [done|].
  apply IH. cbn [items]. apply spliceIn_elem. by right.
Qed.

(** Every slot of a sorted list whose position is in the range of the page
    is put into the sequence. *)
Lemma placeSlots_items {H : Type} (pageSize pageBase : Z) (isMobile : bool)
    (rest : list Slot) (i : nat) (st : EState H) (k : nat) (s : Slot) :
  sortedByPosition rest →
  rest !! k = Some s →
  pageBase <= position s < pageBase + pageSize →
  ItemSlot (i + k) ∈ items (placeSlots pageSize pageBase isMobile rest i st).
Proof.
  intros Hsorted. revert i st k.
  induction rest as [|slot rest IH]; intros i st k Hk Hin; [by rewrite lookup_nil in Hk|].
  apply Sorted_StronglySorted in Hsorted; [|intros a b c; lia].
  apply StronglySorted_inv in Hsorted as [Hsorted Hle].
  apply StronglySorted_Sorted in Hsorted.
  assert (position slot <= position s) as Hslot.
  { destruct k as [|k]; cbn in Hk.
    - injection Hk as <-. lia.
    - rewrite Forall_forall in Hle. apply list_elem_of_lookup_2, Hle in Hk. lia. }
  cbn [placeSlots].
  destruct (Z.ltb_spec (position slot) pageBase) as [Hlow|Hlow].
  - destruct k as [|k]; cbn in Hk.
    + injection Hk as <-. lia.
    + replace (i + S k)%nat with (S i + k)%nat by lia. by apply IH.
  - destruct (Z.geb_spec (position slot) (pageBase + pageSize)) as [Hhigh|Hhigh]; [lia|].
    destruct k as [|k]; cbn in Hk.
    + rewrite Nat.add_0_r. apply placeSlots_items_mono. cbn [items].
      apply spliceIn_elem. by left.
    + replace (i + S k)%nat with (S i + k)%nat by lia. by apply IH.
Qed.

(** One turn of the loop for a slot of the page: the slot is marked and put
    into the sequence, and the reserved spaces grow by its cell count minus
    one, the slot itself being one element of the sequence. *)
Lemma placeSlots_in_page {H : Type} (pageSize pageBase : Z) (isMobile : bool)
    (slot : Slot) (rest : list Slot) (i : nat) (st : EState H) :
  pageBase <= position slot < pageBase + pageSize →
  placeSlots pageSize pageBase isMobile (slot :: rest) i st
  = placeSlots pageSize pageBase isMobile rest (S i)
      (mkEState
         (spliceIn (items st) (position slot - pageBase - reservedSpaces st) (ItemSlot i))
         (reservedSpaces st + (slotSize isMobile slot - 1))
         (<[i := markAmplience slot]> (store st))).
Proof.
  intros Hin. cbn [placeSlots].
  destruct (Z.ltb_spec (position slot) pageBase); [lia|].
  destruct (Z.geb_spec (position slot) (pageBase + pageSize)); [lia|].
  reflexivity.
Qed.

(** C10, as stated, fails for a list that is not sorted: the loop is left at
    the first slot behind the page, so the slot at position 0 that follows a
    slot at position 5 in the list is in the range of page 0 and yet left
    without the marker, and the list is as it was. *)
Lemma enrichResults_unsorted_not_marked :
  let slots := [heroAt 5 1 1; heroAt 0 1 1] in
  let pgs := calculatePageOffsets 3 10 (Some slots) false in
  pageIdOf pgs 0 * 3 = 0
  ∧ slots !! 1%nat = Some (heroAt 0 1 1)
  ∧ 0 <= position (heroAt 0 1 1) < 0 + 3
  ∧ enrichResults (Some (mkSearchResult (Some fourHits) 0 10)) 3 (Some slots) pgs false
    = (Some [ItemHit "a"; ItemHit "b"; ItemHit "c"], Some slots)
  ∧ isAmplience (heroAt 0 1 1) = false.
Proof.
  cbn zeta.
  split; [reflexivity|]. split; [reflexivity|]. split; [cbn; lia|].
  split; reflexivity.
Qed.

(** C10, amended: for a result with a hits array and a slot list sorted by
    position, the call writes to the list that it was given: every slot
    whose position is in the index range of the current page has
    [isAmplience] set to [true], on the object of the list itself, which is
    also the object put into the returned sequence; every other slot is left
    as it was. *)
Theorem enrichResults_marks_slots {H : Type} (res : SearchResult H) (hs : list H)
    (pageSize : Z) (slots : list Slot) (pgs : list Z) (isMobile : bool) :
  hits res = Some hs →
  sortedByPosition slots →
  let pageBase := pageIdOf pgs (resultOffset res) * pageSize in
  ∃ (sequence : list (Item H)) (slots' : list Slot),
    enrichResults (Some res) pageSize (Some slots) pgs isMobile
    = (Some sequence, Some slots')
    ∧ length slots' = length slots
    ∧ ∀ (i : nat) (s : Slot), slots !! i = Some s →
        (pageBase <= position s < pageBase + pageSize →
           slots' !! i = Some (markAmplience s)
           ∧ isAmplience (markAmplience s) = true
           ∧ ItemSlot i ∈ sequence)
        ∧ (¬ (pageBase <= position s < pageBase + pageSize) → slots' !! i = Some s).
Proof.
  intros Hhits Hsorted pageBase.
  unfold enrichResults. rewrite Hhits. cbn zeta. fold pageBase.
  set (st0 := mkEState _ 0 slots).
  destruct (placeSlots_store pageSize pageBase isMobile slots 0 st0 Hsorted eq_refl)
    as (Hlen & _ & Hstore).
  do 2 eexists. split; [reflexivity|]. split; [exact Hlen|].
  intros i s Hi. specialize (Hstore i s Hi). cbn [Nat.add] in Hstore. split.
  - intros Hin. rewrite marked_inside in Hstore by done.
    split_and!; [done|done|].
    by apply (placeSlots_items pageSize pageBase isMobile slots 0 st0 i s).
  - intros Hout. by rewrite marked_outside in Hstore.
Qed.

Lemma enrichResults_marks_slots_witness :
  ∃ (sequence : list (Item string)) (slots' : list Slot),
    enrichResults (Some (mkSearchResult (Some fourHits) 0 10)) 3
      (Some [heroAt 1 1 1; heroAt 4 1 1]) [0; 2; 4; 7; 10] false
    = (Some sequence, Some slots')
    ∧ length slots' = length [heroAt 1 1 1; heroAt 4 1 1]
    ∧ ∀ (i : nat) (s : Slot), [heroAt 1 1 1; heroAt 4 1 1] !! i = Some s →
        (pageIdOf [0; 2; 4; 7; 10] 0 * 3 <= position s < pageIdOf [0; 2; 4; 7; 10] 0 * 3 + 3 →
           slots' !! i = Some (markAmplience s)
           ∧ isAmplience (markAmplience s) = true
           ∧ ItemSlot i ∈ sequence)
        ∧ (¬ (pageIdOf [0; 2; 4; 7; 10] 0 * 3 <= position s
              < pageIdOf [0; 2; 4; 7; 10] 0 * 3 + 3) → slots' !! i = Some s).
Proof.
  apply (enrichResults_marks_slots (mkSearchResult (Some fourHits) 0 10) fourHits 3
           [heroAt 1 1 1; heroAt 4 1 1] [0; 2; 4; 7; 10] false).
  - reflexivity.
  - repeat constructor. cbn. lia.
Defined.

(** ** The table after an enrichment *)

Lemma processSlots_geometry (pageSize : Z) (isMobile : bool) (l l' : list Slot) (st : PState) :
  geometry <$> l = geometry <$> l' →
  processSlots pageSize isMobile st l = processSlots pageSize isMobile st l'.
Proof.
  revert l' st. induction l as [|a l IH]; intros [|b l'] st Hgeo; try done.
  rewrite !fmap_cons in Hgeo. injection Hgeo as Hpos Hrows Hcols Hrest.
  rewrite !processSlots_cons.
  replace (processSlot pageSize isMobile st b) with (processSlot pageSize isMobile st a).
  - by apply IH.
  - unfold processSlot, slotCells. by rewrite Hpos, Hrows, Hcols.
Qed.

Lemma placeSlots_geometry {H : Type} (pageSize pageBase : Z) (isMobile : bool)
    (rest : list Slot) (i : nat) (st : EState H) :
  drop i (store st) = rest →
  geometry <$> store (placeSlots pageSize pageBase isMobile rest i st)
  = geometry <$> store st.
Proof.
  revert i st. induction rest as [|slot rest IH]; intros i st Hdrop; [done|].
  assert (store st !! i = Some slot) as Hi.
  { rewrite <- (Nat.add_0_r i), <- lookup_drop, Hdrop. done. }
  assert (drop (S i) (store st) = rest) as Hdrop'.
  { rewrite (drop_S _ _ _ Hi) in Hdrop. by injection Hdrop. }
  cbn [placeSlots].
  destruct (position slot <? pageBase); [by apply IH|].
  destruct (position slot >=? pageBase + pageSize); [done|].
  rewrite IH; cbn [store].
  - rewrite list_fmap_insert. apply list_insert_id.
    rewrite list_lookup_fmap, Hi. reflexivity.
  - rewrite drop_insert_lt by lia. done.
Qed.

(** X27: the marker that [enrichResults] leaves on the slots does not show
    in the table: made again from the slot list as the enrichment left it,
    the table is the same. *)
Lemma calculatePageOffsets_after_enrichResults {H : Type}
    (res : option (SearchResult H)) (pageSize totalCount : Z) (slots slots' : list Slot)
    (pgs : list Z) (isMobile viewport : bool) :
  (enrichResults res pageSize (Some slots) pgs isMobile).2 = Some slots' →
  calculatePageOffsets pageSize totalCount (Some slots') viewport
  = calculatePageOffsets pageSize totalCount (Some slots) viewport.
Proof.
  intros Hrun. unfold calculatePageOffsets. do 2 f_equal.
  apply processSlots_geometry.
  unfold enrichResults in Hrun.
  destruct res as [res|]; [|by injection Hrun as <-].
  destruct (hits res) as [hs|]; [|by injection Hrun as <-].
  cbn in Hrun. injection Hrun as <-.
  by rewrite placeSlots_geometry.
Qed.

(** * The filter toggle *)

Import Filters.

(** C6: when the attribute already holds a value, a toggle with
    [allowMultiple = false] and [selected = false] leaves the attribute
    holding the new value alone, with nothing of the old value kept, and a
    toggle with [selected = true] leaves the attribute absent.  All other
    attributes stay as they were and the offset is dropped from the
    parameters that go into the navigation. *)
Theorem toggleFilter_single_select
    (searchParams : SearchParams) (attributeId value : string) (old : RefineValue) :
  refine searchParams !! attributeId = Some old →
  (refine (navigated (toggleFilter value attributeId false false searchParams)) !! attributeId
     = Some (RefStr value)
   ∧ refine (navigated (toggleFilter value attributeId false false searchParams))
     = <[attributeId := RefStr value]> (refine searchParams)
   ∧ spOffset (navigated (toggleFilter value attributeId false false searchParams)) = None)
  ∧ (refine (navigated (toggleFilter value attributeId true false searchParams)) !! attributeId
       = None
     ∧ refine (navigated (toggleFilter value attributeId true false searchParams))
       = delete attributeId (refine searchParams)
     ∧ spOffset (navigated (toggleFilter value attributeId true false searchParams)) = None).
Proof.
  intros _. unfold toggleFilter. cbn [negb navigated refine spOffset].
  split; split_and!.
  - apply lookup_insert_eq.
  - apply insert_delete_eq.
  - reflexivity.
  - apply lookup_delete_eq.
  - reflexivity.
  - reflexivity.
Qed.

Lemma toggleFilter_single_select_witness :
  (refine (navigated (toggleFilter "L" "c_size" false false sizeM)) !! "c_size"
     = Some (RefStr "L")
   ∧ refine (navigated (toggleFilter "L" "c_size" false false sizeM))
     = <["c_size" := RefStr "L"]> (refine sizeM)
   ∧ spOffset (navigated (toggleFilter "L" "c_size" false false sizeM)) = None)
  ∧ (refine (navigated (toggleFilter "L" "c_size" true false sizeM)) !! "c_size" = None
     ∧ refine (navigated (toggleFilter "L" "c_size" true false sizeM))
       = delete "c_size" (refine sizeM)
     ∧ spOffset (navigated (toggleFilter "L" "c_size" true false sizeM)) = None).
Proof.
  apply (toggleFilter_single_select sizeM "c_size" "L" (RefStr "M")).
  reflexivity.
Defined.

(** The other attributes are not touched by a single-select toggle. *)
Lemma toggleFilter_other_attributes
    (searchParams : SearchParams) (attributeId other value : string) (selected : bool) :
  other ≠ attributeId →
  refine (navigated (toggleFilter value attributeId selected false searchParams)) !! other
  = refine searchParams !! other.
Proof.
  intros Hne. unfold toggleFilter. cbn [negb navigated refine].
  destruct selected; cbn [negb].
  - by rewrite lookup_delete_ne.
  - by rewrite lookup_insert_ne, lookup_delete_ne.
Qed.

(** The shallow copy shares the [refine] object with the parameters of the
    component. *)
Lemma toggleFilter_shared_refine
    (searchParams : SearchParams) (attributeId value : string) (selected allowMultiple : bool) :
  refine (live (toggleFilter value attributeId selected allowMultiple searchParams))
  = refine (navigated (toggleFilter value attributeId selected allowMultiple searchParams))
  ∧ spOffset (live (toggleFilter value attributeId selected allowMultiple searchParams))
    = spOffset searchParams.
Proof. split; reflexivity. Qed.

(** With [allowMultiple] left at its default, the same toggle appends. *)
Example toggleFilter_multiple_appends :
  refine (navigated (toggleFilter "L" "c_size" false true sizeM)) !! "c_size"
  = Some (RefArr ["M"; "L"]).
Proof. reflexivity. Qed.

(** * The import command *)

Import ImportCli.

Lemma commandsOf_log (t : list Event) (line : string) :
  commandsOf (t ++ [Log line]) = commandsOf t.
Proof. unfold commandsOf. rewrite omap_app. cbn. by rewrite app_nil_r. Qed.

Lemma commandsOf_exec (t : list Event) (command : string) :
  commandsOf (t ++ [Exec command]) = commandsOf t ++ [command].
Proof. unfold commandsOf. by rewrite omap_app. Qed.

Section ImportOrder.

Variable World : Type.
Variable spawn : string → World → World * Z.

Lemma bind_consoleLog {A : Type} (line : string) (k : unit → M World A) (p : Proc World) :
  bind World (consoleLog World line) k p
  = k tt (mkProc (world p) (trace p ++ [Log line])).
Proof. reflexivity. Qed.

Lemma bind_execSync {A : Type} (command : string) (k : unit → M World A) (p : Proc World) :
  bind World (execSync World spawn command) k p
  = let p' := mkProc (spawn command (world p)).1 (trace p ++ [Exec command]) in
    if (spawn command (world p)).2 =? 0 then k tt p'
    else (Thrown (spawn command (world p)).2, p').
Proof.
  unfold bind, execSync. destruct (spawn command (world p)) as [w status].
  cbn. by destruct (status =? 0).
Qed.

(** The commands that were run are the first ones of the list, and the run
    throws exactly when one of them exits with a status other than zero,
    which is then the last one that was run. *)
Lemma runInOrder_prefix (steps : list string) (w : World) :
  ∃ n : nat,
    (runInOrder World spawn steps w).1.1 = take n steps
    ∧ match (runInOrder World spawn steps w).1.2 with
      | Returned _ => n = length steps
      | Thrown status =>
          status ≠ 0 ∧ (1 <= n <= length steps)%nat
      end.
Proof.
  revert w. induction steps as [|command later IH]; intros w.
  - exists 0%nat. done.
  - cbn [runInOrder]. destruct (spawn command w) as [w1 status].
    destruct (Z.eqb_spec status 0) as [->|Hstatus].
    + destruct (IH w1) as (n & Hran & Hout).
      destruct (runInOrder World spawn later w1) as [[ran outcome] w2].
      cbn [fst snd] in *. exists (S n). split; [by rewrite Hran|].
      destruct outcome; cbn [length]; lia.
    + exists 1%nat. cbn. split; [done|]. split; [done|lia].
Qed.

(** The handler runs the configuration and then the import steps as
    [runInOrder] does. *)
Lemma importHandler_runInOrder (context : Context) (p : Proc World) :
  (importHandler World spawn context p).1
  = (runInOrder World spawn (configureCmd context :: importSteps context) (world p)).1.2
  ∧ commandsOf (trace (importHandler World spawn context p).2)
    = commandsOf (trace p)
      ++ (runInOrder World spawn (configureCmd context :: importSteps context) (world p)).1.1
  ∧ world (importHandler World spawn context p).2
    = (runInOrder World spawn (configureCmd context :: importSteps context) (world p)).2.
Proof.
  unfold importHandler, importSteps. cbn [runInOrder].
  destruct p as [w0 t0]. cbn [world trace].
  repeat (
    rewrite bind_consoleLog; rewrite bind_execSync; cbn [world trace fst snd]; cbn zeta;
    match goal with
    | |- context [spawn ?c ?w] => destruct (spawn c w) as [? ?]; cbn [fst snd]
    end;
    match goal with
    | |- context [?status =? 0] =>
        destruct (status =? 0);
        [|cbn [fst snd world trace];
          repeat (rewrite commandsOf_exec || rewrite commandsOf_log);
          rewrite <- ?app_assoc; done]
    end).
  unfold consoleLog. cbn [fst snd world trace].
  repeat (rewrite commandsOf_exec || rewrite commandsOf_log).
  rewrite <- ?app_assoc. done.
Qed.

(** C5: the handler runs its external commands in the fixed order
  configuration, settings, schemas, content types, content items, slots,
  events, each to its end before the next one starts; the commands that
  were run are the first [n] of that list, all seven when the handler
  returns, and when a command exits with a status other than zero the
  handler throws with that status and none of the later commands is run. *)
Theorem importHandler_fixed_order (context : Context) (p : Proc World) :
(importHandler World spawn context p).1
= (runInOrder World spawn (configureCmd context :: importSteps context) (world p)).1.2
∧ commandsOf (trace (importHandler World spawn context p).2)
  = commandsOf (trace p)
    ++ (runInOrder World spawn (configureCmd context :: importSteps context) (world p)).1.1
∧ world (importHandler World spawn context p).2
  = (runInOrder World spawn (configureCmd context :: importSteps context) (world p)).2
∧ ∃ n : nat,
    commandsOf (trace (importHandler World spawn context p).2)
    = commandsOf (trace p) ++ take n (configureCmd context :: importSteps context)
    ∧ match (importHandler World spawn context p).1 with
      | Returned _ => n = 7%nat
      | Thrown status => status ≠ 0 ∧ (1 <= n <= 7)%nat
      end.
Proof.
destruct (importHandler_runInOrder context p) as (Hout & Hran & Hworld).
split_and!; [done|done|done|].
destruct (runInOrder_prefix (configureCmd context :: importSteps context) (world p))
  as (n & Hprefix & Hcase).
exists n. rewrite Hran, Hprefix, Hout. done.
Qed.

End ImportOrder.

(** A run in which the content types fail to import: the content items, the
    slots and the events are not imported. *)
Example importHandler_stops_at_failure :
  (importHandler nat (failAt 3) demoContext (mkProc 0%nat [])).1 = Thrown 1
  ∧ commandsOf (trace (importHandler nat (failAt 3) demoContext (mkProc 0%nat [])).2)
    = [configureCmd demoContext; settingsCmd demoContext; schemaCmd demoContext;
       typeCmd demoContext].
Proof. split; reflexivity. Qed.

(** A run in which every command exits with status zero. *)
Example importHandler_runs_all :
  (importHandler nat (failAt 7) demoContext (mkProc 0%nat [])).1 = Returned tt
  ∧ commandsOf (trace (importHandler nat (failAt 7) demoContext (mkProc 0%nat [])).2)
    = configureCmd demoContext :: importSteps demoContext.
Proof. split; reflexivity. Qed.

(** * More on the page-offset calculator *)

Section Table.

Variable pageSize : Z.
Hypothesis pageSize_pos : 0 < pageSize.

(** An entry of the table after [fillPages] was there before, or is its
    page number times the page size less the offset shift. *)
Lemma fillPages_lookup (upTo : Z) (st : PState) (k : nat) (x : Z) :
  pages (fillPages pageSize upTo st) !! k = Some x →
  pages st !! k = Some x ∨ x = Z.of_nat k * pageSize - offset st.
Proof.
  rewrite fillPages_pages by done. intros Hk.
  apply lookup_app_Some in Hk as [Hk|[Hlen Hk]]; [by left|right].
  rewrite list_lookup_fmap in Hk.
  destruct (seqZ _ _ !! _) as [y|] eqn:Hy; [|done].
  apply lookup_seqZ in Hy as [-> _]. cbn in Hk. injection Hk as <-.
  f_equal. f_equal. lia.
Qed.

Lemma fillPages_prefix (upTo : Z) (st : PState) :
  pages st `prefix_of` pages (fillPages pageSize upTo st).
Proof. rewrite fillPages_pages by done. by apply prefix_app_r. Qed.

Lemma processSlots_prefix (isMobile : bool) (slots : list Slot) (st : PState) :
  pages st `prefix_of` pages (processSlots pageSize isMobile st slots).
Proof.
  revert st. induction slots as [|slot slots IH]; intros st; [done|].
  rewrite processSlots_cons. etrans; [|apply IH].
  unfold processSlot, skipContent.
  set (st1 := fillPages pageSize (position slot) st).
  trans (pages st1); [apply fillPages_prefix|].
  apply (fillPages_prefix (processed st1)
           (mkPState (pages st1) (processed st1) (offset st1 + slotCells isMobile slot))).
Qed.

Lemma reservedCells_app (isMobile : bool) (l1 l2 : list Slot) :
  reservedCells isMobile (l1 ++ l2) = reservedCells isMobile l1 + reservedCells isMobile l2.
Proof.
  induction l1 as [|s l1 IH]; [done|].
  cbn [app]. rewrite !reservedCells_cons, IH. lia.
Qed.

Lemma processSlot_accounted (isMobile : bool) (done : list Slot) (slot : Slot) (st : PState) :
  accounted pageSize isMobile done st →
  accounted pageSize isMobile (done ++ [slot]) (processSlot pageSize isMobile st slot).
Proof.
  intros [Hoff Hpages]. split.
  - rewrite processSlot_offset, reservedCells_app, Hoff. cbn. lia.
  - intros k x Hk. unfold processSlot, skipContent in Hk.
    apply fillPages_lookup in Hk as [Hk| ->]; cbn [pages offset] in *.
    + apply fillPages_lookup in Hk as [Hk| ->].
      * destruct (Hpages k x Hk) as (before & Hpre & ->).
        exists before. split; [by apply prefix_app_r|done].
      * exists done. split; [by apply prefix_app_r|]. by rewrite Hoff.
    + exists (done ++ [slot]). split; [done|].
      rewrite fillPages_offset, reservedCells_app, Hoff. cbn. f_equal. lia.
Qed.

Lemma processSlots_accounted (isMobile : bool) (rest done : list Slot) (st : PState) :
  accounted pageSize isMobile done st →
  accounted pageSize isMobile (done ++ rest) (processSlots pageSize isMobile st rest).
Proof.
  revert done st. induction rest as [|slot rest IH]; intros done st Hst.
  - by rewrite app_nil_r.
  - rewrite processSlots_cons, (assoc_L (++) done [slot] rest : done ++ slot :: rest = _).
    by apply IH, processSlot_accounted.
Qed.

(** X1: the number of pages.  With no slot behind the products and no
    negative cell count the table has [(total + reserved cells) / pageSize + 1]
    entries, the division rounding down; so it is never empty. *)
Theorem calculatePageOffsets_page_count
    (totalCount : Z) (slots : list Slot) (isMobile : bool) :
  0 <= totalCount →
  Forall (λ s, position s <= totalCount ∧ 0 <= slotCells isMobile s) slots →
  zlen (calculatePageOffsets pageSize totalCount (Some slots) isMobile)
  = (totalCount + reservedCells isMobile slots) / pageSize + 1
  ∧ 1 <= zlen (calculatePageOffsets pageSize totalCount (Some slots) isMobile).
Proof.
  intros Ht Hall.
  rewrite (calculatePageOffsets_length pageSize pageSize_pos totalCount slots isMobile Ht Hall).
  split; [done|].
  assert (0 <= reservedCells isMobile slots) as HR.
  { apply reservedCells_nonneg. eapply Forall_impl; [exact Hall|]. cbn. tauto. }
  pose proof (pageNumber_mono pageSize pageSize_pos 0
                (totalCount + reservedCells isMobile slots) ltac:(lia)) as H0.
  unfold pageNumber in *. rewrite Z.div_0_l in H0 by lia. lia.
Qed.

(** X2: without slots the pages are uniform: page [k] starts at product
    [k * pageSize], for every [k] up to [total / pageSize], and there is no
    other page. *)
Theorem calculatePageOffsets_uniform
    (totalCount : Z) (ampSlots : option (list Slot)) (isMobile : bool) (k : nat) :
  0 <= totalCount →
  ampSlots = None ∨ ampSlots = Some [] →
  calculatePageOffsets pageSize totalCount ampSlots isMobile !! k
  = if decide (Z.of_nat k <= totalCount / pageSize)
    then Some (Z.of_nat k * pageSize) else None.
Proof.
  intros Ht Hslots.
  assert (calculatePageOffsets pageSize totalCount ampSlots isMobile
          = (λ k, k * pageSize) <$> seqZ 0 (Z.max 0 (totalCount / pageSize + 1))) as ->.
  { destruct Hslots as [->| ->]; [rewrite calculatePageOffsets_absent|];
      by apply calculatePageOffsets_no_slots. }
  assert (0 <= totalCount / pageSize) by (apply Z.div_pos; lia).
  rewrite list_lookup_fmap. case_decide.
  - rewrite (lookup_seqZ_lt 0 _ k) by lia. done.
  - rewrite (lookup_seqZ_ge 0 _ k) by lia. done.
Qed.

(** X3: every page boundary accounts for the cells of the slots before it:
    entry [k] of the table is [k * pageSize] less the cells of the slots of
    some initial part of the list. *)
Theorem calculatePageOffsets_accounted
    (totalCount : Z) (slots : list Slot) (isMobile : bool) (k : nat) (x : Z) :
  calculatePageOffsets pageSize totalCount (Some slots) isMobile !! k = Some x →
  ∃ before, before `prefix_of` slots
            ∧ x = Z.of_nat k * pageSize - reservedCells isMobile before.
Proof.
  unfold calculatePageOffsets. intros Hk.
  destruct (processSlots_accounted isMobile slots [] initial) as [Hoff Hpages].
  { split; [done|]. intros j y Hj. by destruct j. }
  cbn [app] in *.
  apply fillPages_lookup in Hk as [Hk| ->].
  - by apply Hpages.
  - exists slots. split; [done|]. by rewrite Hoff.
Qed.

(** No page starts behind the position that the pages were filled up to. *)
Lemma processSlots_below (isMobile : bool) (slots : list Slot) (bound : Z) (st : PState) :
  Forall (λ s, position s <= bound) slots →
  Forall (λ x, x <= bound) (pages st) →
  Forall (λ x, x <= bound) (pages (processSlots pageSize isMobile st slots)).
Proof.
  intros Hslots. revert st.
  induction Hslots as [|slot slots Hpos Hslots IH]; intros st Hst; [done|].
  rewrite processSlots_cons. apply IH.
  unfold processSlot, skipContent.
  apply fillPages_below; cbn [pages processed fillPages]; [done| |done].
  by apply fillPages_below.
Qed.

Lemma table_below_total (totalCount : Z) (slots : list Slot) (isMobile : bool) :
  Forall (λ s, position s <= totalCount) slots →
  Forall (λ x, x <= totalCount) (calculatePageOffsets pageSize totalCount (Some slots) isMobile).
Proof.
  intros Hslots. unfold calculatePageOffsets.
  apply fillPages_below; [done| |done].
  apply processSlots_below; [done|constructor].
Qed.

(** X4: no page starts behind the last product: when no slot lies behind
    the products, every entry of the table is at most the total, whatever
    the cell counts of the slots are. *)
Theorem calculatePageOffsets_at_most_total
    (totalCount : Z) (slots : list Slot) (isMobile : bool) (k : nat) (x : Z) :
  Forall (λ s, position s <= totalCount) slots →
  calculatePageOffsets pageSize totalCount (Some slots) isMobile !! k = Some x →
  x <= totalCount.
Proof.
  intros Hslots Hk.
  pose proof (table_below_total totalCount slots isMobile Hslots) as Hall.
  rewrite Forall_forall in Hall. apply Hall. by eapply list_elem_of_lookup_2.
Qed.

Lemma table_head_zero (totalCount : Z) (slots : list Slot) (isMobile : bool) :
  0 <= totalCount →
  Forall (λ s, 0 <= position s) slots →
  head (calculatePageOffsets pageSize totalCount (Some slots) isMobile) = Some 0.
Proof.
  intros Ht Hslots. unfold calculatePageOffsets.
  assert (∀ upTo, 0 <= upTo → ∃ tl, pages (fillPages pageSize upTo initial) = 0 :: tl) as Hfirst.
  { intros upTo HupTo. rewrite fillPages_pages by done. cbn [pages offset initial length app].
    pose proof (pageNumber_mono pageSize pageSize_pos 0 (upTo + 0) ltac:(lia)) as H0.
    unfold pageNumber in *. rewrite Z.div_0_l in H0 by lia.
    rewrite seqZ_cons by lia. cbn. eauto. }
  destruct Hslots as [|slot slots Hpos Hslots].
  - change (processSlots pageSize isMobile initial []) with initial.
    destruct (Hfirst totalCount Ht) as [tl ->]. done.
  - rewrite processSlots_cons.
    destruct (Hfirst (position slot) Hpos) as [tl Htl].
    assert (0 :: tl `prefix_of`
              pages (fillPages pageSize totalCount
                       (processSlots pageSize isMobile
                          (processSlot pageSize isMobile initial slot) slots))) as [more ->].
    { rewrite <- Htl. etrans; [|apply fillPages_prefix].
      etrans; [|apply processSlots_prefix].
      unfold processSlot, skipContent.
      set (st1 := fillPages pageSize (position slot) initial).
      apply (fillPages_prefix (processed st1)
               (mkPState (pages st1) (processed st1)
                  (offset st1 + slotCells isMobile slot))). }
    done.
Qed.

(** X5: the first page starts at product 0: when the total and the slot
    positions are not negative, the table begins with 0. *)
Theorem calculatePageOffsets_starts_at_zero
    (totalCount : Z) (slots : list Slot) (isMobile : bool) :
  0 <= totalCount →
  Forall (λ s, 0 <= position s) slots →
  calculatePageOffsets pageSize totalCount (Some slots) isMobile !! 0%nat = Some 0.
Proof.
  intros Ht Hslots. pose proof (table_head_zero totalCount slots isMobile Ht Hslots) as Hhd.
  by rewrite head_lookup in Hhd.
Qed.

(** X6: with slots of at most one cell, as on the mobile viewport, and a
    list sorted by position, with no position below 0 or above the total,
    every page starts at a product between 0 and the total. *)
Theorem calculatePageOffsets_within_products
    (totalCount : Z) (slots : list Slot) (isMobile : bool) (k : nat) (x : Z) :
  0 <= totalCount →
  sortedByPosition slots →
  Forall (λ s, slotCells isMobile s <= 1) slots →
  Forall (λ s, 0 <= position s <= totalCount) slots →
  calculatePageOffsets pageSize totalCount (Some slots) isMobile !! k = Some x →
  0 <= x <= totalCount.
Proof.
  intros Ht Hsorted Hsizes Hpos Hk. split.
  - pose proof (table_head_zero totalCount slots isMobile Ht) as Hhd.
    rewrite head_lookup in Hhd.
    pose proof (StronglySorted_nonDecreasing _
      (calculatePageOffsets_sorted pageSize pageSize_pos totalCount slots isMobile
         Hsizes Hsorted)) as Hmono.
    apply (Hmono 0%nat k 0 x); [lia| |done].
    apply Hhd. eapply Forall_impl; [exact Hpos|]. cbn. lia.
  - assert (Forall (λ s, position s <= totalCount) slots) as Hle.
    { eapply Forall_impl; [exact Hpos|]. cbn. lia. }
    pose proof (table_below_total totalCount slots isMobile Hle) as Hall.
    rewrite Forall_forall in Hall. apply Hall. by eapply list_elem_of_lookup_2.
Qed.

End Table.

(** ** A table that grows strictly *)

Section StrictTable.

Variable pageSize : Z.
Hypothesis pageSize_gt_1 : 1 < pageSize.

Lemma newPages_strict (off m n : Z) :
  StronglySorted Z.lt ((λ k, k * pageSize - off) <$> seqZ m n).
Proof.
  destruct (Z.le_gt_cases n 0) as [Hn|Hn].
  { rewrite seqZ_nil by done. constructor. }
  rewrite <- (Z2Nat.id n) by lia. clear Hn.
  generalize (Z.to_nat n) as c. intros c. revert m.
  induction c as [|c IH]; intros m.
  - cbn. constructor.
  - rewrite seqZ_cons by lia. rewrite fmap_cons. apply StronglySorted_cons. split.
    + apply Forall_fmap, Forall_seqZ. intros k Hk. cbn. nia.
    + replace (Z.pred (Z.of_nat (S c))) with (Z.of_nat c) by lia. apply IH.
Qed.

(** Filling keeps the table growing strictly when the next page to be made
    starts behind all the pages already there. *)
Lemma fillPages_strict (upTo bound : Z) (st : PState) :
  StronglySorted Z.lt (pages st) →
  Forall (λ x, x < bound) (pages st) →
  pages st = [] ∨ bound <= zlen (pages st) * pageSize - offset st →
  StronglySorted Z.lt (pages (fillPages pageSize upTo st)).
Proof.
  intros Hsorted Hbound Hnext. rewrite fillPages_pages by lia.
  apply StronglySorted_app. split_and!; [|done|apply newPages_strict].
  intros x1 x2 Hx1 Hx2.
  destruct Hnext as [Hnil|Hnext]; [rewrite Hnil in Hx1; by apply elem_of_nil in Hx1|].
  rewrite Forall_forall in Hbound. specialize (Hbound x1 Hx1).
  apply list_elem_of_fmap in Hx2 as (k & -> & Hk).
  apply elem_of_seqZ in Hk. nia.
Qed.

(** The pages that [fillPages] makes end before the cell that the table is
    then filled up to. *)
Lemma fillPages_entries (upTo bound : Z) (st : PState) :
  Forall (λ x, x < bound) (pages st) →
  Forall (λ x, x < bound
               ∨ x + offset st <= (zlen (pages (fillPages pageSize upTo st)) - 1) * pageSize)
    (pages (fillPages pageSize upTo st)).
Proof.
  intros Hold. rewrite fillPages_length by lia. rewrite fillPages_pages by lia.
  apply Forall_app. split.
  - eapply Forall_impl; [exact Hold|]. cbn. tauto.
  - apply Forall_fmap, Forall_seqZ. intros k Hk. cbn. right. nia.
Qed.

Lemma processSlot_strictlyOrdered (isMobile : bool) (st : PState) (slot : Slot) :
  slotCells isMobile slot <= 1 →
  pages st = [] ∨ processed st < position slot →
  strictlyOrdered pageSize st →
  strictlyOrdered pageSize (processSlot pageSize isMobile st slot)
  ∧ filled pageSize (processSlot pageSize isMobile st slot).
Proof.
  intros Hsize Hpos (Hsorted & Hbelow & Hfilled).
  set (st1 := fillPages pageSize (position slot) st).
  assert (StronglySorted Z.lt (pages st1)) as Hsorted1.
  { apply (fillPages_strict _ (processed st + 1)); [done| |].
    - eapply Forall_impl; [exact Hbelow|]. cbn. lia.
    - destruct Hfilled as [?|Hf]; [by left|right]. unfold filled in Hf. lia. }
  assert (Forall (λ x, x <= position slot) (pages st1)) as Hbelow1.
  { apply fillPages_below; [lia| |lia].
    destruct Hpos as [Hnil|Hpos]; [rewrite Hnil; constructor|].
    eapply Forall_impl; [exact Hbelow|]. cbn. lia. }
  assert (Forall (λ x, x < position slot
                       ∨ x + offset st <= (zlen (pages st1) - 1) * pageSize) (pages st1))
    as Hentries.
  { apply fillPages_entries.
    destruct Hpos as [Hnil|Hpos]; [rewrite Hnil; constructor|].
    eapply Forall_impl; [exact Hbelow|]. cbn. lia. }
  pose proof (fillPages_filled pageSize ltac:(lia) (position slot) st) as Hfilled1.
  fold st1 in Hfilled1.
  assert (processed st1 = position slot) as Hproc1 by reflexivity.
  assert (offset st1 = offset st) as Hoff1 by reflexivity.
  unfold filled in Hfilled1. rewrite Hproc1, Hoff1 in Hfilled1.
  unfold processSlot, skipContent. fold st1. rewrite Hproc1, Hoff1.
  set (st' := mkPState (pages st1) (position slot) (offset st + slotCells isMobile slot)).
  split; [split_and!|].
  - destruct (Z.le_gt_cases
               (pageNumber pageSize (position slot + (offset st + slotCells isMobile slot)) + 1)
               (zlen (pages st1))) as [Hnone|Hsome].
    + rewrite fillPages_pages by lia. cbn [pages offset processed st'].
      rewrite seqZ_nil by lia. by rewrite app_nil_r.
    + pose proof (pageNumber_bounds pageSize ltac:(lia)
                    (position slot + (offset st + slotCells isMobile slot))) as Hb.
      assert (zlen (pages st1) * pageSize
              <= pageNumber pageSize
                   (position slot + (offset st + slotCells isMobile slot)) * pageSize)
        as Hmul by nia.
      apply (fillPages_strict _ (position slot)); cbn [pages offset st']; [done| |right; lia].
      eapply Forall_impl; [exact Hentries|].
      intros x [Hx|Hx]; [lia|rewrite Z.mul_sub_distr_r in Hx; lia].
  - rewrite fillPages_processed. apply fillPages_below; cbn [pages st']; [lia|done|lia].
  - right. apply fillPages_filled. lia.
  - apply fillPages_filled. lia.
Qed.

Lemma processSlots_strictlyOrdered (isMobile : bool) (slots : list Slot) (st : PState) :
  Forall (λ s, slotCells isMobile s <= 1) slots →
  Sorted (λ a b, position a < position b) slots →
  pages st = [] ∨ (∀ s, head slots = Some s → processed st < position s) →
  strictlyOrdered pageSize st →
  strictlyOrdered pageSize (processSlots pageSize isMobile st slots).
Proof.
  intros Hsizes. revert st.
  induction Hsizes as [|slot slots Hsize Hsizes IH]; intros st Hslots Hhd Hst.
  - done.
  - rewrite processSlots_cons.
    apply Sorted_inv in Hslots as [Hslots Hrel].
    destruct (processSlot_strictlyOrdered isMobile st slot) as [Hord Hfil]; [done| |done|].
    { destruct Hhd as [?|Hhd]; [by left|right]. by apply Hhd. }
    apply IH; [done| |done].
    right. rewrite processSlot_processed. intros s Hs.
    destruct Hrel as [|s' slots' Hlt]; [done|]. cbn in Hs. by injection Hs as <-.
Qed.

Lemma table_strict (totalCount : Z) (slots : list Slot) (isMobile : bool) :
  Forall (λ s, slotCells isMobile s <= 1) slots →
  Sorted (λ a b, position a < position b) slots →
  StronglySorted Z.lt (calculatePageOffsets pageSize totalCount (Some slots) isMobile).
Proof.
  intros Hsizes Hslots. unfold calculatePageOffsets.
  destruct (processSlots_strictlyOrdered isMobile slots initial)
    as (Hsorted & Hbelow & Hfilled); [done|done|by left| |].
  { split_and!; [constructor|constructor|by left]. }
  apply (fillPages_strict _
           (processed (processSlots pageSize isMobile initial slots) + 1)); [done| |].
  - eapply Forall_impl; [exact Hbelow|]. cbn. lia.
  - destruct Hfilled as [?|Hf]; [by left|right]. unfold filled in Hf. lia.
Qed.

End StrictTable.

Lemma StronglySorted_lookup_lt (l : list Z) (i j : nat) (a b : Z) :
  StronglySorted Z.lt l → (i < j)%nat → l !! i = Some a → l !! j = Some b → a < b.
Proof.
  intros Hl Hlt Hi Hj.
  apply lookup_lt_Some in Hj as Hjlen.
  rewrite <- (take_drop j l) in Hl, Hi, Hj.
  rewrite lookup_app_l in Hi by (rewrite length_take; lia).
  rewrite lookup_app_r in Hj by (rewrite length_take; lia).
  apply (StronglySorted_app_1_elem_of _ _ _ a b) in Hl; [done| |].
  - by eapply list_elem_of_lookup_2.
  - by eapply list_elem_of_lookup_2.
Qed.

(** X7: with a page size of at least 2, slots of at most one cell, as on
    the mobile viewport, and slot positions that grow strictly along the
    list, the table grows strictly: no two pages start at the same
    product. *)
Theorem calculatePageOffsets_strictly_increasing
    (pageSize totalCount : Z) (slots : list Slot) (isMobile : bool) (i j : nat) (a b : Z) :
  1 < pageSize →
  Sorted (λ s1 s2, position s1 < position s2) slots →
  Forall (λ s, slotCells isMobile s <= 1) slots →
  (i < j)%nat →
  calculatePageOffsets pageSize totalCount (Some slots) isMobile !! i = Some a →
  calculatePageOffsets pageSize totalCount (Some slots) isMobile !! j = Some b →
  a < b.
Proof.
  intros Hp Hsorted Hsizes. apply StronglySorted_lookup_lt.
  by apply table_strict.
Qed.

(** * More on the enrichment *)

(** ** The page of an offset *)

(** The index that [findIndex] returns is the first one that passes. *)
Lemma findIndexFrom_first (f : Z → bool) (l : list Z) (i : Z) :
  (findIndexFrom f l i = -1 ∧ Forall (λ x, f x = false) l)
  ∨ (∃ (k : nat) (x : Z),
       findIndexFrom f l i = i + Z.of_nat k
       ∧ l !! k = Some x ∧ f x = true
       ∧ Forall (λ y, f y = false) (take k l)).
Proof.
  revert i. induction l as [|y l IH]; intros i; cbn [findIndexFrom].
  - left. split; [done|constructor].
  - destruct (f y) eqn:Hy.
    + right. exists 0%nat, y. split_and!; [lia|done|done|constructor].
    + destruct (IH (i + 1)) as [[-> Hall]|(k & x & -> & Hk & Hx & Hbefore)].
      * left. split; [done|by constructor].
      * right. exists (S k), x. split_and!; [lia|done|done|by constructor].
Qed.

Lemma pageIdOf_bracket (pgs : list Z) (offset : Z) :
  -1 <= pageIdOf pgs offset < zlen pgs
  ∧ match at_ pgs (pageIdOf pgs offset) with
    | Some start => start <= offset
    | None => pageIdOf pgs offset = -1
    end
  ∧ match at_ pgs (pageIdOf pgs offset + 1) with
    | Some next => offset < next
    | None => pageIdOf pgs offset = zlen pgs - 1
    end.
Proof.
  unfold pageIdOf, findIndex.
  destruct (findIndexFrom_first (λ pageIndex, offset <? pageIndex) pgs 0)
    as [[-> Hall]|(k & x & -> & Hk & Hx & Hbefore)].
  - change (-1 - 1 =? -2) with true. cbv iota.
    replace (zlen pgs - 1 + 1) with (zlen pgs) by lia.
    split; [lia|]. unfold at_. split.
    + destruct (Z.ltb_spec (zlen pgs - 1) 0) as [Hlen|Hlen]; [lia|].
      destruct (pgs !! Z.to_nat (zlen pgs - 1)) as [start|] eqn:Hstart.
      * rewrite Forall_forall in Hall.
        apply list_elem_of_lookup_2, Hall, Z.ltb_ge in Hstart. done.
      * apply lookup_ge_None in Hstart. lia.
    + destruct (Z.ltb_spec (zlen pgs) 0); [lia|].
      rewrite Nat2Z.id, (lookup_ge_None_2 pgs (length pgs)) by lia. done.
  - apply lookup_lt_Some in Hk as Hlen. apply Z.ltb_lt in Hx.
    destruct (Z.eqb_spec (0 + Z.of_nat k - 1) (-2)) as [?|_]; [lia|].
    replace (0 + Z.of_nat k - 1 + 1) with (Z.of_nat k) by lia.
    split; [lia|]. unfold at_. split.
    + destruct (Z.ltb_spec (0 + Z.of_nat k - 1) 0) as [Hk0|Hk0]; [lia|].
      destruct (pgs !! Z.to_nat (0 + Z.of_nat k - 1)) as [start|] eqn:Hstart.
      * rewrite Forall_forall in Hbefore.
        assert (start ∈ take k pgs) as Hin.
        { apply list_elem_of_lookup. exists (Z.to_nat (0 + Z.of_nat k - 1)).
          rewrite lookup_take_lt by lia. done. }
        apply Hbefore, Z.ltb_ge in Hin. done.
      * apply lookup_ge_None in Hstart. lia.
    + destruct (Z.ltb_spec (Z.of_nat k) 0); [lia|]. rewrite Nat2Z.id, Hk. done.
Qed.

(** X8: the page that an offset is taken for.  Whatever the table and the
    offset are, [pageIdOf] is between -1 and the last index; the page it
    names starts at or before the offset, and the page after it, when there
    is one, starts behind the offset.  It is -1 only when the table is empty
    or its first page starts behind the offset. *)
Theorem pageIdOf_page_of_offset (pgs : list Z) (offset : Z) :
  -1 <= pageIdOf pgs offset < zlen pgs
  ∧ match at_ pgs (pageIdOf pgs offset) with
    | Some start => start <= offset
    | None => pageIdOf pgs offset = -1
    end
  ∧ match at_ pgs (pageIdOf pgs offset + 1) with
    | Some next => offset < next
    | None => pageIdOf pgs offset = zlen pgs - 1
    end.
Proof. apply pageIdOf_bracket. Qed.

Lemma at_lookup (pgs : list Z) (k : nat) : at_ pgs (Z.of_nat k) = pgs !! k.
Proof. unfold at_. destruct (Z.ltb_spec (Z.of_nat k) 0); [lia|]. by rewrite Nat2Z.id. Qed.

Lemma pageIdOf_strict (pgs : list Z) (k : nat) (x : Z) :
  StronglySorted Z.lt pgs → pgs !! k = Some x → pageIdOf pgs x = Z.of_nat k.
Proof.
  intros Hsorted Hk.
  destruct (pageIdOf_bracket pgs x) as (Hrange & Hstart & Hnext).
  apply lookup_lt_Some in Hk as Hlen.
  destruct (Z.eq_dec (pageIdOf pgs x) (-1)) as [Hneg|Hneg].
  { rewrite Hneg in Hnext. change (-1 + 1) with (Z.of_nat 0) in Hnext.
    rewrite at_lookup in Hnext.
    destruct (pgs !! 0%nat) as [first|] eqn:Hfirst; [|lia].
    destruct k as [|k]; [rewrite Hk in Hfirst; injection Hfirst as <-; lia|].
    pose proof (StronglySorted_lookup_lt pgs 0 (S k) first x Hsorted ltac:(lia) Hfirst Hk).
    lia. }
  assert (pageIdOf pgs x = Z.of_nat (Z.to_nat (pageIdOf pgs x))) as Hid by lia.
  set (k' := Z.to_nat (pageIdOf pgs x)) in *. rewrite Hid in Hstart, Hnext |- *.
  replace (Z.of_nat k' + 1) with (Z.of_nat (S k')) in Hnext by lia.
  rewrite at_lookup in Hstart, Hnext.
  destruct (pgs !! k') as [start|] eqn:Hk'; [|lia].
  destruct (lt_eq_lt_dec k' k) as [[Hlt|Heq]|Hgt].
  - destruct (pgs !! S k') as [next|] eqn:HSk'; [|lia].
    destruct (decide (S k' = k)) as [<-|Hne].
    + rewrite HSk' in Hk. injection Hk as ->. lia.
    + pose proof (StronglySorted_lookup_lt pgs (S k') k next x Hsorted ltac:(lia) HSk' Hk).
      lia.
  - by subst.
  - pose proof (StronglySorted_lookup_lt pgs k k' x start Hsorted ltac:(lia) Hk Hk'). lia.
Qed.

(** X9: in a table that grows strictly, the offset at which page [k] starts
    is taken for page [k]. *)
Theorem pageIdOf_of_page_start (pgs : list Z) (k : nat) (x : Z) :
  StronglySorted Z.lt pgs → pgs !! k = Some x → pageIdOf pgs x = Z.of_nat k.
Proof. apply pageIdOf_strict. Qed.

(** X10: the calculator and the enrichment agree on the pages.  With a page
    size of at least 2, slots of at most one cell and positions that grow
    strictly along the list, the offset that the table gives for page [k] is
    the offset for which the enrichment works on page [k]. *)
Theorem pageIdOf_calculatePageOffsets
    (pageSize totalCount : Z) (slots : list Slot) (isMobile : bool) (k : nat) (x : Z) :
  1 < pageSize →
  Sorted (λ s1 s2, position s1 < position s2) slots →
  Forall (λ s, slotCells isMobile s <= 1) slots →
  calculatePageOffsets pageSize totalCount (Some slots) isMobile !! k = Some x →
  pageIdOf (calculatePageOffsets pageSize totalCount (Some slots) isMobile) x = Z.of_nat k.
Proof.
  intros Hp Hsorted Hsizes Hk. apply pageIdOf_strict; [|done]. by apply table_strict.
Qed.

(** ** What the sequence holds *)

Lemma hitsOf_spliceIn {H : Type} (l : list (Item H)) (start : Z) (i : nat) :
  hitsOf (spliceIn l start (ItemSlot i)) = hitsOf l.
Proof.
  assert (∀ l1 l2 : list (Item H), hitsOf (l1 ++ ItemSlot i :: l2) = hitsOf (l1 ++ l2)) as Hskip.
  { intros l1 l2. induction l1 as [|item l1 IH]; [done|].
    destruct item; cbn; [f_equal|]; exact IH. }
  unfold spliceIn. by rewrite Hskip, take_drop.
Qed.

Lemma hitsOf_placeSlots {H : Type} (pageSize pageBase : Z) (isMobile : bool)
    (rest : list Slot) (i : nat) (st : EState H) :
  hitsOf (items (placeSlots pageSize pageBase isMobile rest i st)) = hitsOf (items st).
Proof.
  revert i st. induction rest as [|slot rest IH]; intros i st; [done|].
  cbn [placeSlots].
  destruct (position slot <? pageBase); [by apply IH|].
  destruct (position slot >=? pageBase + pageSize); [done|].
  rewrite IH. cbn [items]. apply hitsOf_spliceIn.
Qed.

Lemma hitsOf_hits {H : Type} (hs : list H) : hitsOf (ItemHit <$> hs) = hs.
Proof. induction hs as [|h hs IH]; [done|]. cbn. f_equal. exact IH. Qed.

Lemma sliceTo_fmap {A B : Type} (f : A → B) (l : list A) (e : option Z) :
  sliceTo (f <$> l) e = f <$> sliceTo l e.
Proof.
  unfold sliceTo. destruct e as [e|]; [|done].
  rewrite length_fmap. destruct (e <? 0); by rewrite fmap_take.
Qed.

Lemma sliceTo_prefix {A : Type} (l : list A) (e : option Z) : sliceTo l e `prefix_of` l.
Proof.
  unfold sliceTo. destruct e as [e|]; [|apply prefix_nil].
  destruct (e <? 0); apply prefix_take.
Qed.

(** X11: the enrichment never reorders, repeats or makes up a product: the
    hits of the returned sequence, in their order, are the first hits of the
    result, as many as the page takes, whatever the slots are. *)
Theorem enrichResults_hits_kept {H : Type} (res : SearchResult H) (hs : list H)
    (pageSize : Z) (ampSlots : option (list Slot)) (pgs : list Z) (isMobile : bool) :
  hits res = Some hs →
  ∃ sequence,
    (enrichResults (Some res) pageSize ampSlots pgs isMobile).1 = Some sequence
    ∧ hitsOf sequence
      = sliceTo hs (sfccCountOf pgs (pageIdOf pgs (resultOffset res)) (total res))
    ∧ hitsOf sequence `prefix_of` hs.
Proof.
  intros Hhits. unfold enrichResults. rewrite Hhits. cbn zeta.
  assert (∀ sequence : list (Item H),
            hitsOf sequence
            = hitsOf (sliceTo (ItemHit <$> hs)
                        (sfccCountOf pgs (pageIdOf pgs (resultOffset res)) (total res))) →
            hitsOf sequence
              = sliceTo hs (sfccCountOf pgs (pageIdOf pgs (resultOffset res)) (total res))
            ∧ hitsOf sequence `prefix_of` hs) as Hdone.
  { intros sequence ->. rewrite sliceTo_fmap, hitsOf_hits. split; [done|apply sliceTo_prefix]. }
  destruct ampSlots as [slots|]; cbn [fst]; eexists; (split; [reflexivity|]); apply Hdone.
  - apply hitsOf_placeSlots.
  - reflexivity.
Qed.

Lemma spliceIn_perm {A : Type} (l : list A) (start : Z) (x : A) :
  spliceIn l start x ≡ₚ x :: l.
Proof.
  unfold spliceIn. rewrite <- Permutation_middle. by rewrite take_drop.
Qed.

(** For a sorted list the loop puts in the slots of the page, each once. *)
Lemma placeSlots_perm {H : Type} (pageSize pageBase : Z) (isMobile : bool)
    (rest : list Slot) (i : nat) (st : EState H) :
  sortedByPosition rest →
  items (placeSlots pageSize pageBase isMobile rest i st)
  ≡ₚ (ItemSlot <$> pageSlotsFrom pageSize pageBase rest i) ++ items st.
Proof.
  intros Hsorted. revert i st.
  induction rest as [|slot rest IH]; intros i st; [done|].
  apply Sorted_StronglySorted in Hsorted; [|intros a b c; lia].
  apply StronglySorted_inv in Hsorted as [Hsorted Hle].
  apply StronglySorted_Sorted in Hsorted.
  cbn [placeSlots pageSlotsFrom]. unfold inPage.
  destruct (Z.ltb_spec (position slot) pageBase) as [Hlow|Hlow].
  - rewrite (proj2 (Z.leb_gt _ _)) by lia. cbn [andb]. by apply IH.
  - rewrite (proj2 (Z.leb_le _ _)) by lia. cbn [andb].
    destruct (Z.geb_spec (position slot) (pageBase + pageSize)) as [Hhigh|Hhigh].
    + rewrite (proj2 (Z.ltb_ge _ _)) by lia.
      assert (pageSlotsFrom pageSize pageBase rest (S i) = []) as ->; [|done].
      clear IH Hsorted. revert Hle. generalize (S i).
      induction rest as [|s rest IHrest]; intros j Hle; [done|].
      apply Forall_cons in Hle as [Hs Hle]. cbn [pageSlotsFrom]. unfold inPage.
      rewrite (proj2 (Z.ltb_ge _ _)) by lia. rewrite andb_false_r. by apply IHrest.
    + rewrite (proj2 (Z.ltb_lt _ _)) by lia.
      rewrite IH by done. cbn [items]. rewrite spliceIn_perm.
      rewrite fmap_cons. cbn [app]. by rewrite Permutation_middle.
Qed.

(** X12: for a list sorted by position the returned sequence holds the
    products that the page takes and the slots whose position is in the
    range of the page, each of them once and nothing else; so its length is
    the number of those products plus the number of those slots. *)
Theorem enrichResults_holds_page {H : Type} (res : SearchResult H) (hs : list H)
    (pageSize : Z) (slots : list Slot) (pgs : list Z) (isMobile : bool) :
  hits res = Some hs →
  sortedByPosition slots →
  ∃ sequence,
    (enrichResults (Some res) pageSize (Some slots) pgs isMobile).1 = Some sequence
    ∧ sequence
      ≡ₚ (ItemSlot <$> pageSlotsFrom pageSize
            (pageIdOf pgs (resultOffset res) * pageSize) slots 0)
         ++ (ItemHit <$> sliceTo hs
               (sfccCountOf pgs (pageIdOf pgs (resultOffset res)) (total res)))
    ∧ length sequence
      = (length (pageSlotsFrom pageSize (pageIdOf pgs (resultOffset res) * pageSize) slots 0)
         + length (sliceTo hs
                     (sfccCountOf pgs (pageIdOf pgs (resultOffset res)) (total res))))%nat.
Proof.
  intros Hhits Hsorted. unfold enrichResults. rewrite Hhits. cbn zeta. cbn [fst].
  eexists. split; [reflexivity|].
  assert (∀ sequence l1 l2, sequence ≡ₚ (@ItemSlot H <$> l1) ++ (ItemHit <$> l2) →
            sequence ≡ₚ (ItemSlot <$> l1) ++ (ItemHit <$> l2)
            ∧ length sequence = (length l1 + length l2)%nat) as Hlen.
  { intros sequence l1 l2 Hperm. split; [done|].
    by rewrite Hperm, length_app, !length_fmap. }
  apply Hlen. rewrite placeSlots_perm by done. cbn [items].
  by rewrite sliceTo_fmap.
Qed.

(** ** Where a slot of one cell lands *)

Lemma spliceIn_at {A : Type} (l : list A) (n : nat) (x : A) :
  (n <= length l)%nat → spliceIn l (Z.of_nat n) x !! n = Some x.
Proof.
  intros Hn. unfold spliceIn. destruct (Z.ltb_spec (Z.of_nat n) 0); [lia|].
  rewrite Nat2Z.id, lookup_app_r by (rewrite length_take; lia).
  rewrite length_take. replace (n - n `min` length l)%nat with 0%nat by lia. done.
Qed.

Lemma spliceIn_before {A : Type} (l : list A) (start : Z) (n : nat) (x y : A) :
  Z.of_nat n < start → l !! n = Some y → spliceIn l start x !! n = Some y.
Proof.
  intros Hn Hy. unfold spliceIn. destruct (Z.ltb_spec start 0); [lia|].
  apply lookup_lt_Some in Hy as Hlen.
  rewrite lookup_app_l by (rewrite length_take; lia).
  rewrite lookup_take_lt by lia. done.
Qed.

Lemma spliceIn_length {A : Type} (l : list A) (start : Z) (x : A) :
  length (spliceIn l start x) = S (length l).
Proof. by rewrite spliceIn_perm. Qed.

(** Slots of one cell behind index [n] of the page leave the element at
    index [n] of the sequence where it is. *)
Lemma placeSlots_keeps_index {H : Type} (pageSize pageBase : Z) (isMobile : bool)
    (rest : list Slot) (i : nat) (st : EState H) (n : nat) (x : Item H) :
  Forall (λ s, pageBase + Z.of_nat n < position s ∧ slotSize isMobile s = 1) rest →
  reservedSpaces st = 0 →
  items st !! n = Some x →
  items (placeSlots pageSize pageBase isMobile rest i st) !! n = Some x.
Proof.
  intros Hall. revert i st.
  induction Hall as [|slot rest [Hpos Hsize] Hall IH]; intros i st Hres Hx; [done|].
  cbn [placeSlots].
  destruct (position slot <? pageBase); [by apply IH|].
  destruct (position slot >=? pageBase + pageSize); [done|].
  apply IH; cbn [items reservedSpaces].
  - rewrite Hsize, Hres. lia.
  - rewrite Hres. apply spliceIn_before; [lia|done].
Qed.

Lemma placeSlots_lands {H : Type} (pageSize pageBase : Z) (isMobile : bool)
    (rest : list Slot) (i : nat) (st : EState H) (k : nat) (s : Slot) :
  Sorted (λ a b, position a < position b) rest →
  Forall (λ s, slotSize isMobile s = 1) rest →
  reservedSpaces st = 0 →
  rest !! k = Some s →
  pageBase <= position s < pageBase + pageSize →
  position s - pageBase
    <= zlen (items st) + zlen (pageSlotsFrom pageSize pageBase (take k rest) i) →
  items (placeSlots pageSize pageBase isMobile rest i st) !! Z.to_nat (position s - pageBase)
  = Some (ItemSlot (i + k)).
Proof.
  intros Hsorted. revert i st k.
  induction rest as [|slot rest IH]; intros i st k Hsizes Hres Hk Hin Hroom;
    [by rewrite lookup_nil in Hk|].
  apply Sorted_StronglySorted in Hsorted; [|intros a b c; lia].
  apply StronglySorted_inv in Hsorted as [Hsorted Hlt].
  apply StronglySorted_Sorted in Hsorted.
  apply Forall_cons in Hsizes as [Hsize Hsizes].
  assert (position slot <= position s) as Hslot.
  { destruct k as [|k]; cbn in Hk.
    - injection Hk as <-. lia.
    - rewrite Forall_forall in Hlt. apply list_elem_of_lookup_2, Hlt in Hk. lia. }
  cbn [placeSlots].
  destruct (Z.ltb_spec (position slot) pageBase) as [Hlow|Hlow].
  - destruct k as [|k]; cbn in Hk; [injection Hk as <-; lia|].
    replace (i + S k)%nat with (S i + k)%nat by lia.
    apply IH; [done|done|done|done|done|].
    cbn [take pageSlotsFrom] in Hroom. unfold inPage in Hroom.
    rewrite (proj2 (Z.leb_gt _ _)) in Hroom by lia. done.
  - destruct (Z.geb_spec (position slot) (pageBase + pageSize)) as [Hhigh|Hhigh]; [lia|].
    destruct k as [|k]; cbn in Hk.
    + injection Hk as <-. rewrite Nat.add_0_r.
      cbn [take pageSlotsFrom length] in Hroom.
      apply placeSlots_keeps_index; cbn [items reservedSpaces].
      * apply Forall_and. split; [|done].
        eapply Forall_impl; [exact Hlt|]. cbn. lia.
      * rewrite Hsize, Hres. lia.
      * rewrite Hres.
        replace (position slot - pageBase - 0)
          with (Z.of_nat (Z.to_nat (position slot - pageBase))) by lia.
        apply spliceIn_at. lia.
    + replace (i + S k)%nat with (S i + k)%nat by lia.
      apply IH; cbn [items reservedSpaces]; [done|done| |done|done|].
      * rewrite Hsize, Hres. lia.
      * rewrite spliceIn_length.
        cbn [take pageSlotsFrom] in Hroom.
        rewrite (proj2 (inPage_true pageSize pageBase slot)) in Hroom by lia.
        cbn [length] in Hroom. lia.
Qed.

(** X13: a slot of one cell is shown at the cell of its position.  For
    slots of one cell, as on the mobile viewport, at positions that grow
    strictly along the list, a slot of the page stands at index
    [position - pageBase] of the returned sequence, provided the products of
    the page and the slots before it are enough to reach that index. *)
Theorem enrichResults_slot_at_position {H : Type} (res : SearchResult H) (hs : list H)
    (pageSize : Z) (slots : list Slot) (pgs : list Z) (isMobile : bool)
    (i : nat) (s : Slot) :
  hits res = Some hs →
  Sorted (λ a b, position a < position b) slots →
  Forall (λ s, slotSize isMobile s = 1) slots →
  slots !! i = Some s →
  let pageBase := pageIdOf pgs (resultOffset res) * pageSize in
  pageBase <= position s < pageBase + pageSize →
  position s - pageBase
    <= zlen (sliceTo hs (sfccCountOf pgs (pageIdOf pgs (resultOffset res)) (total res)))
       + zlen (pageSlotsFrom pageSize pageBase (take i slots) 0) →
  ∃ sequence,
    (enrichResults (Some res) pageSize (Some slots) pgs isMobile).1 = Some sequence
    ∧ sequence !! Z.to_nat (position s - pageBase) = Some (ItemSlot i).
Proof.
  intros Hhits Hsorted Hsizes Hi pageBase Hin Hroom.
  unfold enrichResults. rewrite Hhits. cbn zeta. cbn [fst]. fold pageBase.
  eexists. split; [reflexivity|].
  apply (placeSlots_lands pageSize pageBase isMobile slots 0 _ i s); try done.
  cbn [items]. by rewrite sliceTo_fmap, length_fmap.
Qed.

(** ** A second run *)

Lemma placeSlots_store_before {H : Type} (pageSize pageBase : Z) (isMobile : bool)
    (rest : list Slot) (i : nat) (st : EState H) (j : nat) :
  (j < i)%nat →
  store (placeSlots pageSize pageBase isMobile rest i st) !! j = store st !! j.
Proof.
  revert i st. induction rest as [|slot rest IH]; intros i st Hj; [done|].
  cbn [placeSlots].
  destruct (position slot <? pageBase); [apply IH; lia|].
  destruct (position slot >=? pageBase + pageSize); [done|].
  rewrite IH by lia. cbn [store]. rewrite list_lookup_insert_ne by lia. done.
Qed.

Lemma placeSlots_store_length {H : Type} (pageSize pageBase : Z) (isMobile : bool)
    (rest : list Slot) (i : nat) (st : EState H) :
  length (store (placeSlots pageSize pageBase isMobile rest i st)) = length (store st).
Proof.
  revert i st. induction rest as [|slot rest IH]; intros i st; [done|].
  cbn [placeSlots].
  destruct (position slot <? pageBase); [apply IH|].
  destruct (position slot >=? pageBase + pageSize); [done|].
  rewrite IH. cbn [store]. apply length_insert.
Qed.

(** The loop run again over the store that it left: the same sequence, and
    nothing is written that was not there. *)
Lemma placeSlots_again {H : Type} (pageSize pageBase : Z) (isMobile : bool)
    (rest : list Slot) (i : nat) (st : EState H) :
  drop i (store st) = rest →
  let final := placeSlots pageSize pageBase isMobile rest i st in
  placeSlots pageSize pageBase isMobile (drop i (store final)) i
    (mkEState (items st) (reservedSpaces st) (store final))
  = final.
Proof.
  revert i st. induction rest as [|slot rest IH]; intros i st Hdrop; cbn zeta.
  { cbn [placeSlots]. rewrite Hdrop. by destruct st. }
  assert (store st !! i = Some slot) as Hi.
  { rewrite <- (Nat.add_0_r i), <- lookup_drop, Hdrop. done. }
  assert (drop (S i) (store st) = rest) as Hdrop'.
  { rewrite (drop_S _ _ _ Hi) in Hdrop. by injection Hdrop. }
  cbn [placeSlots].
  destruct (Z.ltb_spec (position slot) pageBase) as [Hlow|Hlow].
  - set (final := placeSlots pageSize pageBase isMobile rest (S i) st).
    assert (store final !! i = Some slot) as Hfi.
    { unfold final. rewrite placeSlots_store_before by lia. done. }
    rewrite (drop_S _ _ _ Hfi). cbn [placeSlots].
    rewrite (proj2 (Z.ltb_lt _ _)) by lia.
    by apply IH.
  - destruct (Z.geb_spec (position slot) (pageBase + pageSize)) as [Hhigh|Hhigh].
    + rewrite Hdrop. cbn [placeSlots].
      rewrite (proj2 (Z.ltb_ge _ _)) by lia.
      destruct (Z.geb_spec (position slot) (pageBase + pageSize)); [|lia].
      by destruct st.
    + set (st1 := mkEState _ _ _).
      set (final := placeSlots pageSize pageBase isMobile rest (S i) st1).
      assert (store final !! i = Some (markAmplience slot)) as Hfi.
      { unfold final. rewrite placeSlots_store_before by lia.
        unfold st1. cbn [store].
        apply list_lookup_insert_eq. by eapply lookup_lt_Some. }
      rewrite (drop_S _ _ _ Hfi). cbn [placeSlots].
      change (position (markAmplience slot)) with (position slot).
      rewrite (proj2 (Z.ltb_ge _ _)) by lia.
      destruct (Z.geb_spec (position slot) (pageBase + pageSize)); [lia|].
      cbn [store items reservedSpaces].
      change (markAmplience (markAmplience slot)) with (markAmplience slot).
      rewrite (list_insert_id _ _ _ Hfi).
      change (slotSize isMobile (markAmplience slot)) with (slotSize isMobile slot).
      apply (IH (S i) st1).
      unfold st1. cbn [store]. rewrite drop_insert_lt by lia. done.
Qed.

(** X14: a second run changes nothing.  Called again with the slot list as
    the first call left it, [enrichResults] returns the same sequence and
    leaves the list as it then is. *)
Theorem enrichResults_again {H : Type} (res : option (SearchResult H))
    (pageSize : Z) (slots slots' : list Slot) (pgs : list Z) (isMobile : bool) :
  (enrichResults res pageSize (Some slots) pgs isMobile).2 = Some slots' →
  enrichResults res pageSize (Some slots') pgs isMobile
  = ((enrichResults res pageSize (Some slots) pgs isMobile).1, Some slots').
Proof.
  unfold enrichResults.
  destruct res as [res|]; [|by intros [= <-]].
  destruct (hits res) as [hs|]; [|by intros [= <-]].
  cbn zeta. cbn [fst snd]. intros [= <-].
  set (st0 := mkEState _ 0 slots).
  pose proof (placeSlots_again pageSize (pageIdOf pgs (resultOffset res) * pageSize)
                isMobile slots 0 st0 eq_refl) as Hagain.
  cbn zeta in Hagain. rewrite drop_0 in Hagain. unfold st0 in Hagain at 2 3.
  cbn [items reservedSpaces] in Hagain. rewrite Hagain. done.
Qed.

(** * More on the filter toggle *)

Lemma currentValues_insert (r : gmap string RefineValue) (attributeId : string)
    (vs : list string) :
  currentValues (<[attributeId := RefArr vs]> r) attributeId = vs.
Proof. unfold currentValues. by rewrite lookup_insert_eq. Qed.

(** The values that a toggle with [allowMultiple] leaves for the attribute. *)
Lemma toggleFilter_multiple_values
    (searchParams : SearchParams) (attributeId value : string) (selected : bool) :
  let values :=
    if selected then filter (λ v, v ≠ value) (currentValues (refine searchParams) attributeId)
    else currentValues (refine searchParams) attributeId ++ [value] in
  refine (navigated (toggleFilter value attributeId selected true searchParams))
  = match values with
    | [] => delete attributeId (refine searchParams)
    | _ => <[attributeId := RefArr values]> (refine searchParams)
    end.
Proof.
  unfold toggleFilter. cbn [negb navigated refine].
  destruct selected; cbn [negb].
  - destruct (filter _ _) as [|v vs]; cbn [length Nat.eqb]; [|done].
    by rewrite delete_insert_eq.
  - destruct (currentValues _ _ ++ [value]) as [|v vs] eqn:Hvs; cbn [length Nat.eqb]; [|done].
    by apply app_nil in Hvs as [_ ?].
Qed.

(** X15: a toggle with [allowMultiple] never leaves an empty array or a
    string behind: afterwards the attribute is absent, or it holds an array
    with at least one value. *)
Theorem toggleFilter_multiple_normal
    (searchParams : SearchParams) (attributeId value : string) (selected : bool) :
  match refine (navigated (toggleFilter value attributeId selected true searchParams))
          !! attributeId with
  | None => True
  | Some (RefArr vs) => vs ≠ []
  | Some (RefStr _) => False
  end.
Proof.
  rewrite toggleFilter_multiple_values. cbn zeta.
  destruct (if selected then _ else _) as [|v vs].
  - by rewrite lookup_delete_eq.
  - by rewrite lookup_insert_eq.
Qed.

(** X16: selecting a value and then deselecting it leads back.  When the
    value was not among the values of the attribute, the two toggles leave
    the attribute with the values it had, as an array, or absent when it had
    none. *)
Theorem toggleFilter_select_deselect
    (searchParams : SearchParams) (attributeId value : string) :
  value ∉ currentValues (refine searchParams) attributeId →
  refine (navigated (toggleFilter value attributeId true true
            (navigated (toggleFilter value attributeId false true searchParams))))
  = match currentValues (refine searchParams) attributeId with
    | [] => delete attributeId (refine searchParams)
    | vs => <[attributeId := RefArr vs]> (refine searchParams)
    end.
Proof.
  intros Hnew.
  rewrite (toggleFilter_multiple_values _ attributeId value true). cbn zeta.
  rewrite (toggleFilter_multiple_values searchParams attributeId value false). cbn zeta.
  set (vs := currentValues (refine searchParams) attributeId) in *.
  assert (filter (λ v, v ≠ value) vs = vs) as Hkeep.
  { clear -Hnew. induction vs as [|v vs IH]; [done|].
    apply not_elem_of_cons in Hnew as [Hv Hvs].
    rewrite filter_cons_True by done. by rewrite IH. }
  destruct (vs ++ [value]) as [|w ws] eqn:Hvs; [by apply app_nil in Hvs as [_ ?]|].
  rewrite currentValues_insert, <- Hvs, filter_app, Hkeep.
  rewrite filter_cons_False by (intros H; by apply H). rewrite filter_nil, app_nil_r.
  destruct vs as [|v vs'].
  - by rewrite delete_insert_eq.
  - by rewrite insert_insert_eq.
Qed.

Lemma toggleFilter_select_deselect_witness :
  refine (navigated (toggleFilter "L" "c_size" true true
            (navigated (toggleFilter "L" "c_size" false true sizeM))))
  = match currentValues (refine sizeM) "c_size" with
    | [] => delete "c_size" (refine sizeM)
    | vs => <["c_size" := RefArr vs]> (refine sizeM)
    end.
Proof.
  apply toggleFilter_select_deselect.
  vm_compute. intros Hin. inversion Hin as [|? ? ? Hin']; subst. inversion Hin'.
Defined.

(** X17: deselecting removes the value altogether: after a toggle with
    [selected] and [allowMultiple], the value is not among the values of the
    attribute, however often it stood there. *)
Theorem toggleFilter_deselect_removes
    (searchParams : SearchParams) (attributeId value : string) :
  value ∉ currentValues
            (refine (navigated (toggleFilter value attributeId true true searchParams)))
            attributeId.
Proof.
  rewrite toggleFilter_multiple_values. cbn zeta.
  destruct (filter _ _) as [|v vs] eqn:Hvs.
  - unfold currentValues. rewrite lookup_delete_eq. apply not_elem_of_nil.
  - rewrite currentValues_insert, <- Hvs. intros Hin.
    apply list_elem_of_filter in Hin as [Hne _]. by apply Hne.
Qed.

(** X18: a toggle touches one attribute only.  In either mode every other
    attribute keeps its value, the limit and the sort order are kept, the
    offset is dropped from the parameters of the navigation and kept in the
    parameters of the component, whose [refine] object is the one that was
    written to. *)
Theorem toggleFilter_frame
    (searchParams : SearchParams) (attributeId other value : string)
    (selected allowMultiple : bool) :
  other ≠ attributeId →
  refine (navigated (toggleFilter value attributeId selected allowMultiple searchParams))
    !! other = refine searchParams !! other
  ∧ limit (navigated (toggleFilter value attributeId selected allowMultiple searchParams))
    = limit searchParams
  ∧ sort (navigated (toggleFilter value attributeId selected allowMultiple searchParams))
    = sort searchParams
  ∧ spOffset (navigated (toggleFilter value attributeId selected allowMultiple searchParams))
    = None
  ∧ spOffset (live (toggleFilter value attributeId selected allowMultiple searchParams))
    = spOffset searchParams
  ∧ refine (live (toggleFilter value attributeId selected allowMultiple searchParams))
    = refine (navigated (toggleFilter value attributeId selected allowMultiple searchParams)).
Proof.
  intros Hne. split_and!; try reflexivity.
  destruct allowMultiple.
  - rewrite toggleFilter_multiple_values. cbn zeta.
    destruct (if selected then _ else _).
    + by rewrite lookup_delete_ne.
    + by rewrite lookup_insert_ne.
  - by apply toggleFilter_other_attributes.
Qed.

Lemma toggleFilter_frame_witness :
  refine (navigated (toggleFilter "L" "c_size" false true sizeM)) !! "c_refinementColor"
    = refine sizeM !! "c_refinementColor"
  ∧ limit (navigated (toggleFilter "L" "c_size" false true sizeM)) = limit sizeM
  ∧ sort (navigated (toggleFilter "L" "c_size" false true sizeM)) = sort sizeM
  ∧ spOffset (navigated (toggleFilter "L" "c_size" false true sizeM)) = None
  ∧ spOffset (live (toggleFilter "L" "c_size" false true sizeM)) = spOffset sizeM
  ∧ refine (live (toggleFilter "L" "c_size" false true sizeM))
    = refine (navigated (toggleFilter "L" "c_size" false true sizeM)).
Proof.
  apply (toggleFilter_frame sizeM "c_size" "c_refinementColor" "L" false true).
  discriminate.
Defined.

(** ** Values held as one string *)

Lemma splitOn_append (sep : Ascii.ascii) (v rest : string) :
  hasChar sep v = false →
  splitOn sep (v +:+ String sep rest) = v :: splitOn sep rest.
Proof.
  induction v as [|c v IH]; intros Hv.
  - change (EmptyString +:+ String sep rest) with (String sep rest).
    cbn [splitOn]. by rewrite Ascii.eqb_refl.
  - cbn [hasChar] in Hv. apply orb_false_iff in Hv as [Hc Hv].
    change (String c v +:+ String sep rest) with (String c (v +:+ String sep rest)).
    cbn [splitOn]. rewrite Hc, IH by done. done.
Qed.

Lemma splitOn_plain (sep : Ascii.ascii) (v : string) :
  hasChar sep v = false → splitOn sep v = [v].
Proof.
  induction v as [|c v IH]; intros Hv; cbn [splitOn]; [done|].
  cbn [hasChar] in Hv. apply orb_false_iff in Hv as [Hc Hv].
  rewrite Hc, IH by done. done.
Qed.

Lemma splitOn_joinWith (sep : Ascii.ascii) (vs : list string) :
  vs ≠ [] →
  Forall (λ v, hasChar sep v = false) vs →
  splitOn sep (joinWith sep vs) = vs.
Proof.
  intros Hne Hall. induction Hall as [|v vs Hv Hall IH]; [done|].
  destruct vs as [|w ws].
  - cbn [joinWith]. by apply splitOn_plain.
  - change (joinWith sep (v :: w :: ws)) with (v +:+ String sep (joinWith sep (w :: ws))).
    rewrite splitOn_append by done. by rewrite IH.
Qed.

Lemma joinWith_empty (sep : Ascii.ascii) (vs : list string) :
  joinWith sep vs = EmptyString → vs = [] ∨ vs = [EmptyString].
Proof.
  destruct vs as [|v [|w ws]]; cbn [joinWith]; [by left|intros ->; by right|].
  intros Hempty. destruct v; discriminate.
Qed.

(** X19: values joined by bars in one string are read as the array of the
    values.  When no value holds a bar, and the values are not just the
    empty string, the toggle finds in the string exactly the values that
    were joined, so it does to the string what it does to the array. *)
Theorem toggleFilter_joined_values
    (searchParams : SearchParams) (attributeId value : string) (selected : bool)
    (vs : list string) :
  Forall (λ v, hasChar bar v = false) vs →
  vs ≠ [EmptyString] →
  refine searchParams !! attributeId = Some (RefStr (joinWith bar vs)) →
  currentValues (refine searchParams) attributeId = vs
  ∧ refine (navigated (toggleFilter value attributeId selected true searchParams))
    = refine (navigated (toggleFilter value attributeId selected true
                (mkSearchParams (limit searchParams) (spOffset searchParams)
                   (sort searchParams)
                   (<[attributeId := RefArr vs]> (refine searchParams))))).
Proof.
  intros Hall Hne Hheld.
  assert (currentValues (refine searchParams) attributeId = vs) as Hvs.
  { unfold currentValues. rewrite Hheld.
    destruct (joinWith bar vs) as [|c str] eqn:Hjoin.
    - apply joinWith_empty in Hjoin as [Hnil|Hone]; by subst.
    - rewrite <- Hjoin. apply splitOn_joinWith; [|done]. by intros ->. }
  split; [done|].
  rewrite !toggleFilter_multiple_values. cbn zeta. cbn [refine].
  rewrite currentValues_insert, Hvs.
  destruct (if selected then _ else _); [by rewrite delete_insert_eq|by rewrite insert_insert_eq].
Qed.

Lemma toggleFilter_joined_values_witness :
  currentValues (refine sizeM) "c_refinementColor" = ["red"; "blue"]
  ∧ refine (navigated (toggleFilter "green" "c_refinementColor" false true sizeM))
    = refine (navigated (toggleFilter "green" "c_refinementColor" false true
                (mkSearchParams (limit sizeM) (spOffset sizeM) (sort sizeM)
                   (<["c_refinementColor" := RefArr ["red"; "blue"]]> (refine sizeM))))).
Proof.
  apply (toggleFilter_joined_values sizeM "c_refinementColor" "green" false ["red"; "blue"]).
  - repeat constructor.
  - discriminate.
  - reflexivity.
Defined.

(** * The effect that aligns the offset *)

Import Navigation.

(** The loop keeps the nearest entry seen so far, the first one among
    equals. *)
Lemma nearestFrom_spec (rest seen : list Z) (offset : Z) (dist : option Z) (pageId : nat) :
  match dist with
  | None => seen = [] ∧ pageId = 0%nat
  | Some d =>
      (∃ y, seen !! pageId = Some y ∧ d = Z.abs (y - offset))
      ∧ (∀ j z, seen !! j = Some z → d <= Z.abs (z - offset))
      ∧ (∀ j z, (j < pageId)%nat → seen !! j = Some z → d < Z.abs (z - offset))
  end →
  let found := nearestFrom rest offset (length seen) dist pageId in
  (seen ++ rest = [] ∧ found = 0%nat)
  ∨ (∃ y, (seen ++ rest) !! found = Some y
          ∧ (∀ j z, (seen ++ rest) !! j = Some z → Z.abs (y - offset) <= Z.abs (z - offset))
          ∧ (∀ j z, (j < found)%nat → (seen ++ rest) !! j = Some z →
               Z.abs (y - offset) < Z.abs (z - offset))).
Proof.
  revert seen dist pageId. induction rest as [|x rest IH]; intros seen dist pageId Hinv;
    cbn zeta; cbn [nearestFrom].
  - rewrite app_nil_r. destruct dist as [d|].
    + destruct Hinv as ((y & Hy & ->) & Hmin & Hfirst). right. exists y. done.
    + destruct Hinv as [-> ->]. by left.
  - right.
    replace (seen ++ x :: rest) with ((seen ++ [x]) ++ rest) by (by rewrite <- app_assoc).
    replace (S (length seen)) with (length (seen ++ [x])) by (rewrite length_app; cbn; lia).
    assert (∀ d' p',
              match Some d' with
              | None => seen ++ [x] = [] ∧ p' = 0%nat
              | Some d =>
                  (∃ y, (seen ++ [x]) !! p' = Some y ∧ d = Z.abs (y - offset))
                  ∧ (∀ j z, (seen ++ [x]) !! j = Some z → d <= Z.abs (z - offset))
                  ∧ (∀ j z, (j < p')%nat → (seen ++ [x]) !! j = Some z →
                       d < Z.abs (z - offset))
              end →
              ∃ y, ((seen ++ [x]) ++ rest)
                     !! nearestFrom rest offset (length (seen ++ [x])) (Some d') p' = Some y
                   ∧ (∀ j z, ((seen ++ [x]) ++ rest) !! j = Some z →
                        Z.abs (y - offset) <= Z.abs (z - offset))
                   ∧ (∀ j z, (j < nearestFrom rest offset (length (seen ++ [x])) (Some d') p')%nat →
                        ((seen ++ [x]) ++ rest) !! j = Some z →
                        Z.abs (y - offset) < Z.abs (z - offset))) as Hstep.
    { intros d' p' Hinv'. destruct (IH (seen ++ [x]) (Some d') p' Hinv') as [[Hnil _]|Hok].
      - by destruct seen.
      - exact Hok. }
    destruct dist as [d|].
    + destruct Hinv as ((y & Hy & ->) & Hmin & Hfirst).
      destruct (Z.ltb_spec (Z.abs (x - offset)) (Z.abs (y - offset))) as [Hlt|Hge].
      * apply Hstep. split_and!.
        -- exists x. split; [|done]. by rewrite lookup_app_r, Nat.sub_diag.
        -- intros j z Hj. apply lookup_app_Some in Hj as [Hj|[_ Hj]].
           ++ specialize (Hmin j z Hj). lia.
           ++ apply list_lookup_singleton_Some in Hj as [_ <-]. lia.
        -- intros j z Hj Hz. rewrite lookup_app_l in Hz by done.
           specialize (Hmin j z Hz). lia.
      * apply Hstep. split_and!.
        -- exists y. split; [|done]. by apply lookup_app_l_Some.
        -- intros j z Hj. apply lookup_app_Some in Hj as [Hj|[_ Hj]].
           ++ by apply (Hmin j z).
           ++ apply list_lookup_singleton_Some in Hj as [_ <-]. lia.
        -- intros j z Hj Hz. apply lookup_lt_Some in Hy as Hlen.
           rewrite lookup_app_l in Hz by lia. by apply (Hfirst j z).
    + destruct Hinv as [-> ->]. cbn [app length].
      apply (Hstep (Z.abs (x - offset)) 0%nat). cbn [app]. split_and!.
      * by exists x.
      * intros [|j] z Hj; [|done]. cbn in Hj. injection Hj as <-. lia.
      * intros j z Hj. lia.
Qed.

(** X20: the effect looks for the entry of the table nearest to the offset:
    in a table that is not empty, the entry that it picks is at least as
    near to the offset as every other entry, and nearer than every entry
    before it. *)
Theorem nearestPage_nearest (pageOffsets : list Z) (offset : Z) :
  pageOffsets ≠ [] →
  ∃ y, pageOffsets !! nearestPage pageOffsets offset = Some y
       ∧ (∀ j z, pageOffsets !! j = Some z → Z.abs (y - offset) <= Z.abs (z - offset))
       ∧ (∀ j z, (j < nearestPage pageOffsets offset)%nat → pageOffsets !! j = Some z →
            Z.abs (y - offset) < Z.abs (z - offset)).
Proof.
  intros Hne. unfold nearestPage.
  destruct (nearestFrom_spec pageOffsets [] offset None 0 ltac:(done)) as [[Hnil _]|Hok]; done.
Qed.

Lemma nearestPage_nearest_witness :
  ∃ y, tableOfTen !! nearestPage tableOfTen 3 = Some y
       ∧ (∀ j z, tableOfTen !! j = Some z → Z.abs (y - 3) <= Z.abs (z - 3))
       ∧ (∀ j z, (j < nearestPage tableOfTen 3)%nat → tableOfTen !! j = Some z →
            Z.abs (y - 3) < Z.abs (z - 3)).
Proof. apply nearestPage_nearest. discriminate. Defined.

Lemma alignOffset_stay_iff (pageOffsets : list Z) (offset : Z) :
  alignOffset pageOffsets offset = Stay ↔ offset ∈ pageOffsets.
Proof.
  unfold alignOffset. destruct pageOffsets as [|p0 ps] eqn:Hps.
  { cbn. split; [done|]. intros Hin. by apply elem_of_nil in Hin. }
  rewrite <- Hps.
  destruct (nearestPage_nearest pageOffsets offset) as (y & Hy & Hmin & _); [by subst|].
  rewrite Hy. destruct (Z.eqb_spec y offset) as [->|Hne].
  - split; [|done]. intros _. by eapply list_elem_of_lookup_2.
  - split; [done|]. intros Hin. apply list_elem_of_lookup in Hin as [j Hj].
    specialize (Hmin j offset Hj). lia.
Qed.

(** X21: the effect navigates exactly when the offset of the URL is not in
    the table: it stays when the offset is the start of some page, and only
    then. *)
Theorem alignOffset_stays (pageOffsets : list Z) (offset : Z) :
  alignOffset pageOffsets offset = Stay ↔ offset ∈ pageOffsets.
Proof. apply alignOffset_stay_iff. Qed.

(** X22: one navigation is enough.  The offset that the effect navigates
    to is the start of a page, so the effect stays when it runs again with
    that offset. *)
Theorem alignOffset_settles (pageOffsets : list Z) (offset target : Z) :
  alignOffset pageOffsets offset = NavigateTo (Some target) →
  target ∈ pageOffsets ∧ alignOffset pageOffsets target = Stay.
Proof.
  intros Hnav.
  assert (target ∈ pageOffsets) as Hin.
  { unfold alignOffset in Hnav.
    destruct (pageOffsets !! nearestPage pageOffsets offset) as [x|] eqn:Hx; [|done].
    destruct (x =? offset); [done|]. injection Hnav as <-.
    by eapply list_elem_of_lookup_2. }
  split; [done|]. by apply alignOffset_stay_iff.
Qed.

Lemma alignOffset_settles_witness :
  2 ∈ tableOfTen ∧ alignOffset tableOfTen 2 = Stay.
Proof. apply (alignOffset_settles tableOfTen 3 2). reflexivity. Defined.

(** * More on the import command *)

Section ImportTrace.

Variable World : Type.
Variable spawn : string → World → World * Z.

(** X23: what a run prints.  The lines and commands of a run are the first
    [n] of the script of a run without failure: every command comes right
    after the line that announces it, the last line, [done!], is printed
    exactly when the handler returns, and a run that throws ends with the
    command that failed. *)
Theorem importHandler_trace (context : Context) (p : Proc World) :
  ∃ n : nat,
    trace (importHandler World spawn context p).2
    = trace p ++ take n (importScript context)
    ∧ match (importHandler World spawn context p).1 with
      | Returned _ => n = length (importScript context)
      | Thrown status =>
          status ≠ 0
          ∧ (n < length (importScript context))%nat
          ∧ ∃ command, last (take n (importScript context)) = Some (Exec command)
      end.
Proof.
  unfold importHandler, importScript. destruct p as [w0 t0]. cbn [world trace length].
  repeat (
    rewrite bind_consoleLog; rewrite bind_execSync; cbn [world trace fst snd]; cbn zeta;
    match goal with
    | |- context [spawn ?c ?w] => destruct (spawn c w) as [? ?]; cbn [fst snd]
    end;
    match goal with
    | |- context [?status =? 0] =>
        destruct (Z.eqb_spec status 0); [|cbn [fst snd world trace]]
    end).
  all: rewrite <- ?app_assoc; cbn [app].
  all: unfold consoleLog; cbn [fst snd world trace]; rewrite <- ?app_assoc; cbn [app].
  1: exists 15%nat.
  2: exists 14%nat.
  3: exists 12%nat.
  4: exists 10%nat.
  5: exists 8%nat.
  6: exists 6%nat.
  7: exists 4%nat.
  8: exists 2%nat.
  all: cbn [take last]; split; [reflexivity|]; try done.
  all: split; [done|]; split; [lia|]; eauto.
Qed.

End ImportTrace.

(** Once the callback has been invoked, or the process has exited, a
    further invocation does nothing. *)
Lemma failAll_spent (calls : list (option string * option ErrArg)) (st : FailState) :
  failInvoked st = true ∨ exited st = true → failAll calls st = st.
Proof.
  intros Hspent. induction calls as [|call calls IH]; [done|].
  cbn [failAll fold_left]. unfold failAll in IH.
  assert (failFn call.1 call.2 st = st) as ->; [|done].
  unfold failFn. destruct (exited st), (failInvoked st); try done. by destruct Hspent.
Qed.

(** X24: the fail callback acts once.  However often it is invoked, only
    the first invocation has an effect: the help is shown at most once, and
    when an error is logged the process exits, with status 0. *)
Theorem failFn_once (call : option string * option ErrArg)
    (calls : list (option string * option ErrArg)) :
  failAll (call :: calls) (mkFailState false false [])
  = failFn call.1 call.2 (mkFailState false false [])
  ∧ (failTrace (failAll (call :: calls) (mkFailState false false [])) = []
     ∨ failTrace (failAll (call :: calls) (mkFailState false false [])) = [ShowHelp]
     ∨ ∃ err, call.2 = Some err
              ∧ failTrace (failAll (call :: calls) (mkFailState false false []))
                = [LogError err; Exit 0]).
Proof.
  assert (failAll (call :: calls) (mkFailState false false [])
          = failFn call.1 call.2 (mkFailState false false [])) as ->.
  { cbn [failAll fold_left]. apply (failAll_spent calls).
    unfold failFn. cbn [exited failInvoked].
    destruct (_ || _); [by left|].
    destruct (truthyErr call.2); [|by left].
    destruct call.2; by left. }
  split; [done|]. unfold failFn. cbn [exited failInvoked failTrace app].
  destruct (_ || _); [by right; left|].
  destruct (truthyErr call.2); [|by left].
  destruct call.2 as [err|]; [|by left]. right; right. by exists err.
Qed.

(** * The content wrapper *)

Import Wrapper.

(** X25: what a caller's components do to the registry.  A schema that the
    caller names is rendered by the caller's component; every other schema
    is rendered as without the caller's components; and the content is shown
    raw exactly when neither the caller, nor the registry, nor the prototype
    of a plain object names its schema. *)
Theorem resolve_override {Inherited : Type} (objectPrototype : gmap string Inherited)
    (own : gmap string Component) (schema : option string) :
  resolve objectPrototype (Some own) schema
  = match own !! default "undefined" schema with
    | Some component => Render component
    | None => resolve objectPrototype None schema
    end
  ∧ (resolve objectPrototype (Some own) schema = Raw
     ↔ own !! default "undefined" schema = None
       ∧ componentsMapping !! default "undefined" schema = None
       ∧ objectPrototype !! default "undefined" schema = None).
Proof.
  unfold resolve, lookupMapping, mappingFor.
  destruct (own !! default "undefined" schema) as [c|] eqn:Hown.
  - rewrite (lookup_union_Some_l own componentsMapping _ c Hown).
    split; [done|]. split; [done|]. by intros [? _].
  - rewrite lookup_union_r by done. split; [done|].
    destruct (componentsMapping !! default "undefined" schema).
    { split; [done|]. by intros (_ & ? & _). }
    destruct (objectPrototype !! default "undefined" schema).
    { split; [done|]. by intros (_ & _ & ?). }
    done.
Qed.

(** * The search of [getProps] *)

Import SearchProps.

(** X26: the refinements of the search.  The refinements of the URL are
    kept, in their order and at the front; the restriction to master
    products comes last; and for a category the refinement [cgid=<id>] is
    among them, added only when the URL did not hold it already. *)
Theorem searchRefine_parts (categoryId : option string) (refine : list string) :
  refine `prefix_of` searchRefine categoryId refine
  ∧ last (searchRefine categoryId refine) = Some "htype=master"
  ∧ match categoryId with
    | Some (String c cs as id) =>
        ("cgid=" +:+ id) ∈ searchRefine categoryId refine
        ∧ (("cgid=" +:+ id) ∈ refine →
             searchRefine categoryId refine = refine ++ ["htype=master"])
        ∧ (("cgid=" +:+ id) ∉ refine →
             searchRefine categoryId refine = refine ++ ["cgid=" +:+ id; "htype=master"])
    | _ => searchRefine categoryId refine = refine ++ ["htype=master"]
    end.
Proof.
  unfold searchRefine. destruct categoryId as [[|c cs]|].
  - split_and!; [by apply prefix_app_r|by rewrite last_snoc|done].
  - case_bool_decide as Hin.
    + split_and!; [by apply prefix_app_r|by rewrite last_snoc| |done|done].
      apply elem_of_app. by left.
    + split_and!.
      * rewrite <- app_assoc. by apply prefix_app_r.
      * by rewrite last_snoc.
      * rewrite !elem_of_app, !list_elem_of_singleton. left. by right.
      * done.
      * intros _. by rewrite <- app_assoc.
  - split_and!; [by apply prefix_app_r|by rewrite last_snoc|done].
Qed.

(** * The properties at sample inputs *)

Lemma calculatePageOffsets_page_count_witness :
  zlen (calculatePageOffsets 3 9 (Some [heroAt 0 1 1; heroAt 4 1 2]) false)
  = (9 + reservedCells false [heroAt 0 1 1; heroAt 4 1 2]) / 3 + 1
  ∧ 1 <= zlen (calculatePageOffsets 3 9 (Some [heroAt 0 1 1; heroAt 4 1 2]) false).
Proof.
  apply (calculatePageOffsets_page_count 3).
  - lia.
  - lia.
  - repeat constructor; cbn; lia.
Defined.

Lemma calculatePageOffsets_uniform_witness :
  calculatePageOffsets 3 10 None false !! 2%nat
  = if decide (Z.of_nat 2 <= 10 / 3) then Some (Z.of_nat 2 * 3) else None.
Proof.
  apply (calculatePageOffsets_uniform 3).
  - lia.
  - lia.
  - by left.
Defined.

Lemma calculatePageOffsets_accounted_witness :
  ∃ before, before `prefix_of` [heroAt 0 1 1; heroAt 4 1 2]
            ∧ 3 = Z.of_nat 2 * 3 - reservedCells false before.
Proof.
  apply (calculatePageOffsets_accounted 3 10 [heroAt 0 1 1; heroAt 4 1 2] false 2 3).
  reflexivity.
Defined.

Lemma calculatePageOffsets_at_most_total_witness : 8 <= 10.
Proof.
  apply (calculatePageOffsets_at_most_total 3 ltac:(lia) 10 [heroAt 0 2 2] false 4 8).
  - repeat constructor. cbn. lia.
  - reflexivity.
Defined.

Lemma calculatePageOffsets_starts_at_zero_witness :
  calculatePageOffsets 3 10 (Some [heroAt 2 2 2]) false !! 0%nat = Some 0.
Proof.
  apply (calculatePageOffsets_starts_at_zero 3).
  - lia.
  - lia.
  - repeat constructor. cbn. lia.
Defined.

Lemma calculatePageOffsets_within_products_witness : 0 <= 3 <= 10.
Proof.
  apply (calculatePageOffsets_within_products 3 ltac:(lia) 10
           [heroAt 0 1 1; heroAt 1 1 1; heroAt 2 1 1] true 2 3).
  - lia.
  - repeat constructor; cbn; lia.
  - repeat constructor; cbn; lia.
  - repeat constructor; cbn; lia.
  - reflexivity.
Defined.

Lemma calculatePageOffsets_strictly_increasing_witness : 1 < 3.
Proof.
  apply (calculatePageOffsets_strictly_increasing 3 10
           [heroAt 0 1 1; heroAt 1 1 1; heroAt 2 1 1] true 1 2 1 3).
  - lia.
  - repeat constructor; cbn; lia.
  - repeat constructor; cbn; lia.
  - lia.
  - reflexivity.
  - reflexivity.
Defined.

Lemma pageIdOf_of_page_start_witness : pageIdOf tableOfTen 5 = Z.of_nat 2.
Proof.
  apply pageIdOf_of_page_start.
  - repeat constructor; lia.
  - reflexivity.
Defined.

Lemma pageIdOf_calculatePageOffsets_witness :
  pageIdOf (calculatePageOffsets 3 10 (Some [heroAt 0 1 1; heroAt 4 2 2]) true) 4
  = Z.of_nat 2.
Proof.
  apply pageIdOf_calculatePageOffsets.
  - lia.
  - repeat constructor; cbn; lia.
  - repeat constructor; cbn; lia.
  - reflexivity.
Defined.

Lemma enrichResults_hits_kept_witness :
  ∃ sequence,
    (enrichResults (Some (mkSearchResult (Some fourHits) 0 10)) 3
       (Some [heroAt 5 1 1; heroAt 0 2 2]) tableOfTen false).1 = Some sequence
    ∧ hitsOf sequence
      = sliceTo fourHits (sfccCountOf tableOfTen (pageIdOf tableOfTen 0) 10)
    ∧ hitsOf sequence `prefix_of` fourHits.
Proof.
  apply (enrichResults_hits_kept (mkSearchResult (Some fourHits) 0 10) fourHits 3
           (Some [heroAt 5 1 1; heroAt 0 2 2]) tableOfTen false).
  reflexivity.
Defined.

Lemma enrichResults_holds_page_witness :
  ∃ sequence,
    (enrichResults (Some (mkSearchResult (Some fourHits) 0 10)) 3
       (Some [heroAt 0 1 1; heroAt 4 1 1]) tableOfTen false).1 = Some sequence
    ∧ sequence
      ≡ₚ (ItemSlot <$> pageSlotsFrom 3 (pageIdOf tableOfTen 0 * 3)
            [heroAt 0 1 1; heroAt 4 1 1] 0)
         ++ (ItemHit <$> sliceTo fourHits (sfccCountOf tableOfTen (pageIdOf tableOfTen 0) 10))
    ∧ length sequence
      = (length (pageSlotsFrom 3 (pageIdOf tableOfTen 0 * 3) [heroAt 0 1 1; heroAt 4 1 1] 0)
         + length (sliceTo fourHits
                     (sfccCountOf tableOfTen (pageIdOf tableOfTen 0) 10)))%nat.
Proof.
  apply (enrichResults_holds_page (mkSearchResult (Some fourHits) 0 10) fourHits 3
           [heroAt 0 1 1; heroAt 4 1 1] tableOfTen false).
  - reflexivity.
  - repeat constructor; cbn; lia.
Defined.

Lemma enrichResults_slot_at_position_witness :
  ∃ sequence,
    (enrichResults (Some (mkSearchResult (Some fourHits) 0 10)) 3
       (Some [heroAt 1 1 1; heroAt 2 1 1]) [0; 1; 4; 7; 10] false).1 = Some sequence
    ∧ sequence !! Z.to_nat (position (heroAt 2 1 1) - pageIdOf [0; 1; 4; 7; 10] 0 * 3)
      = Some (ItemSlot 1).
Proof.
  apply (enrichResults_slot_at_position (mkSearchResult (Some fourHits) 0 10) fourHits 3
           [heroAt 1 1 1; heroAt 2 1 1] [0; 1; 4; 7; 10] false 1 (heroAt 2 1 1)).
  - reflexivity.
  - repeat constructor; cbn; lia.
  - repeat constructor.
  - reflexivity.
  - vm_compute. split; [discriminate|reflexivity].
  - vm_compute. discriminate.
Defined.

Lemma enrichResults_again_witness :
  enrichResults (Some (mkSearchResult (Some fourHits) 0 10)) 3
    (Some [markAmplience (heroAt 0 1 1); heroAt 4 1 1]) tableOfTen false
  = ((enrichResults (Some (mkSearchResult (Some fourHits) 0 10)) 3
        (Some [heroAt 0 1 1; heroAt 4 1 1]) tableOfTen false).1,
     Some [markAmplience (heroAt 0 1 1); heroAt 4 1 1]).
Proof.
  apply enrichResults_again. reflexivity.
Defined.

Lemma calculatePageOffsets_after_enrichResults_witness :
  calculatePageOffsets 3 10 (Some [markAmplience (heroAt 0 1 1); heroAt 4 1 1]) false
  = calculatePageOffsets 3 10 (Some [heroAt 0 1 1; heroAt 4 1 1]) false.
Proof.
  apply (calculatePageOffsets_after_enrichResults
           (Some (mkSearchResult (Some fourHits) 0 10)) 3 10
           [heroAt 0 1 1; heroAt 4 1 1] [markAmplience (heroAt 0 1 1); heroAt 4 1 1]
           tableOfTen false false).
  reflexivity.
Defined.

(** * The products of a page *)

Section ProductsOfPage.

Variable pageSize : Z.
Hypothesis pageSize_pos : 0 < pageSize.

Lemma fillPages_paced (upTo : Z) (st : PState) :
  paced pageSize st → paced pageSize (fillPages pageSize upTo st).
Proof.
  intros [Hshift Hpace]. split.
  - intros k x Hk. rewrite fillPages_offset.
    apply fillPages_lookup in Hk as [Hk| ->]; [by apply Hshift|lia].
  - intros k a b Ha Hb.
    apply fillPages_lookup in Hb as [Hb| ->].
    + apply lookup_lt_Some in Hb as Hlen.
      rewrite fillPages_pages, lookup_app_l in Ha by lia. by apply (Hpace k).
    + apply fillPages_lookup in Ha as [Ha| ->].
      * specialize (Hshift k a Ha). lia.
      * lia.
Qed.

Lemma processSlots_paced (isMobile : bool) (slots : list Slot) (st : PState) :
  Forall (λ s, 0 <= slotCells isMobile s) slots →
  paced pageSize st →
  paced pageSize (processSlots pageSize isMobile st slots).
Proof.
  intros Hsizes. revert st.
  induction Hsizes as [|slot slots Hsize Hsizes IH]; intros st Hst; [done|].
  rewrite processSlots_cons. apply IH. unfold processSlot, skipContent.
  apply fillPages_paced.
  destruct (fillPages_paced (position slot) st Hst) as [Hshift Hpace].
  split; cbn [pages offset]; [|done].
  intros k x Hk. specialize (Hshift k x Hk). rewrite fillPages_offset in Hshift |- *. lia.
Qed.

(** X28: the products that a page takes.  With slots of no or one cell, as
    on the mobile viewport, sorted by position and none behind the products,
    every page of the table takes a number of products between 0 and the
    page size. *)
Theorem sfccCountOf_calculatePageOffsets
    (totalCount : Z) (slots : list Slot) (isMobile : bool) (k : nat) (start : Z) :
  sortedByPosition slots →
  Forall (λ s, 0 <= slotCells isMobile s <= 1) slots →
  Forall (λ s, position s <= totalCount) slots →
  calculatePageOffsets pageSize totalCount (Some slots) isMobile !! k = Some start →
  ∃ count,
    sfccCountOf (calculatePageOffsets pageSize totalCount (Some slots) isMobile)
      (Z.of_nat k) totalCount = Some count
    ∧ 0 <= count <= pageSize.
Proof.
  intros Hsorted Hsizes Hpos Hk.
  set (pgs := calculatePageOffsets pageSize totalCount (Some slots) isMobile) in *.
  assert (nonDecreasing pgs) as Hmono.
  { apply StronglySorted_nonDecreasing, calculatePageOffsets_sorted; [done| |done].
    eapply Forall_impl; [exact Hsizes|]. cbn. lia. }
  assert (Forall (λ x, x <= totalCount) pgs) as Hbelow by by apply table_below_total.
  assert (Forall (λ s, 0 <= slotCells isMobile s) slots) as Hnonneg.
  { eapply Forall_impl; [exact Hsizes|]. cbn. lia. }
  set (st := processSlots pageSize isMobile initial slots).
  assert (paced pageSize (fillPages pageSize totalCount st)) as [Hshift Hpace].
  { apply fillPages_paced, processSlots_paced; [done|].
    split; intros j ? ?; by destruct j. }
  change (pages (fillPages pageSize totalCount st)) with pgs in Hshift, Hpace.
  unfold sfccCountOf. rewrite at_lookup, Hk.
  replace (Z.of_nat k + 1) with (Z.of_nat (S k)) by lia. rewrite at_lookup.
  eexists. split; [reflexivity|].
  destruct (pgs !! S k) as [next|] eqn:Hnext; cbn [default].
  - unfold id. split.
    + pose proof (Hmono k (S k) start next ltac:(lia) Hk Hnext). lia.
    + pose proof (Hpace k start next Hk Hnext). lia.
  - split.
    + rewrite Forall_forall in Hbelow.
      apply list_elem_of_lookup_2, Hbelow in Hk. lia.
    + apply lookup_ge_None in Hnext. apply lookup_lt_Some in Hk as Hlt.
      pose proof (fillPages_filled pageSize pageSize_pos totalCount st) as Hfilled.
      unfold filled in Hfilled. rewrite fillPages_offset, fillPages_processed in Hfilled.
      change (pages (fillPages pageSize totalCount st)) with pgs in Hfilled.
      specialize (Hshift k start Hk). rewrite fillPages_offset in Hshift.
      assert (zlen pgs = Z.of_nat (S k)) as Hlen by lia.
      rewrite Hlen in Hfilled. nia.
Qed.

End ProductsOfPage.

Lemma sfccCountOf_calculatePageOffsets_witness :
  ∃ count,
    sfccCountOf (calculatePageOffsets 3 10 (Some [heroAt 0 1 1; heroAt 4 2 2]) true)
      (Z.of_nat 4) 10 = Some count
    ∧ 0 <= count <= 3.
Proof.
  apply (sfccCountOf_calculatePageOffsets 3 ltac:(lia) 10
           [heroAt 0 1 1; heroAt 4 2 2] true 4 10).
  - repeat constructor; cbn; lia.
  - repeat constructor; cbn; lia.
  - repeat constructor; cbn; lia.
  - reflexivity.
Defined.
